(** * The asynchronous lookup store of the SNMP lookup processor

    A shallow embedding of [plugins/processors/snmp_lookup/store.go]: the
    store record, its operations ([newStore], [addBacklog], [removeBacklog],
    [refreshTimer], [enqueue], [lookup], [destroy], [purge]) as functions on
    an explicit state, and a scheduler that interleaves the callers of the
    store, the workers of the pool, the backlog timer and the eviction of
    cache items.

    Conventions.
    - A [time.Time] is an instant in nanoseconds ([Z]); a [time.Duration] is a
      64-bit count of nanoseconds, and [Time.Sub] saturates ([clamp64]).
    - A [*tagMap] is an [option tagMap]; [None] is the nil pointer.
    - The callbacks [notify] and [update] are not values of the model: every
      call of them is recorded in the [trace] of the store, together with
      the submissions to the pool and the bookkeeping statements of a
      resolution job. What [update] returns is chosen by the environment.
      The scheduler ([step], [reachable]) covers the runs in which the
      callbacks return; the extended scheduler ([xstep], [xreachable]) adds
      the runs in which a callback panics.
    - Go visits a map in an order it draws anew for every loop: the order
      of the [n]-th loop over the backlog is the parameter [range n].
    - The mutex is not a value of the model either: every critical section
      of the source (the bodies of [addBacklog], [removeBacklog], [purge] and
      the locked part of [destroy]) is one atomic step, and none of them
      blocks inside.
    - [sync.Map], [expirable.LRU] and [pond.WorkerPool] are libraries; their
      operations are atomic steps with the documented effect. Expiry and
      eviction of cache items happen at any time. *)

From stdpp Require Import base gmap sets list strings.

#[local] Set Warnings "-clear-no-such-hyp".

Open Scope Z_scope.

(** ** Time *)

Definition maxDuration : Z := 9223372036854775807.
Definition minDuration : Z := -9223372036854775808.

Definition clamp64 (d : Z) : Z :=
  if d <? minDuration then minDuration
  else if maxDuration <? d then maxDuration
  else d.

(** [time.Since(t)], read at the instant [now]. *)
Definition since (now t : Z) : Z := clamp64 (now - t).

(** The zero [time.Time], the value of [var earliest time.Time]. *)
Definition zeroTime : Z := 0.

(** ** Data *)

(** Modelled from the spec: the declaration of [tagMap] is in a file of the
    package that is not part of the sources at hand; [store.go] reads its
    fields [created] and [rows], and the spec describes a resolved entry as a
    mapping from sub-key to resolved attributes plus a creation timestamp. *)
Record tagMap := TagMap {
  created : Z;
  rows : gmap string (gmap string string)
}.

(** Which thread calls the notifier: the caller of [lookup], or a pool
    worker finishing a resolution job. *)
Inductive origin := Caller | Worker.

Inductive event :=
| EvSubmit (agent : string)                         (* pool.Submit took a job *)
| EvUpdate (agent : string) (e : option tagMap)     (* s.update(agent) returned e *)
| EvCacheAdd (agent : string) (e : option tagMap)   (* the job did s.cache.Add *)
| EvRemoveBacklog (agent : string)                  (* the job did s.removeBacklog *)
| EvNotify (o : origin) (agent : string) (e : option tagMap) (* s.notify(agent, e) *)
| EvRelease (agent : string)                        (* the job did s.inflight.Delete *)
| EvDestroyed                                       (* destroy returned *)
| EvPanic (agent : string).                         (* a callback panicked in a job *)

(** The closure handed to the pool by [enqueue], with the statement it
    executes next. *)
Inductive pc :=
| PcUpdate
| PcCacheAdd (e : option tagMap)
| PcRemoveBacklog (e : option tagMap)
| PcNotify (e : option tagMap)
| PcDelete (e : option tagMap).

Record job := Job { jagent : string; jpc : pc }.

(** [expirable.LRU]: the size and the TTL that [expirable.NewLRU] was
    called with, and the items. The two arguments are kept as passed: what
    the library makes of them (it replaces a negative size and a TTL that is
    not positive by defaults of its own) is not part of [store.go], and the
    store never reads them. Expiry and eviction are steps of the
    environment ([LEvict] below). *)
Record lru := LRU {
  arg_size : Z;
  arg_ttl : Z;
  items : gmap string (option tagMap)
}.

(** [pond.WorkerPool]: the number of workers and the [MinWorkers] option
    that [pond.New] was called with (kept as passed; the limits the library
    derives from them are its own and the store never reads them), the
    submitted jobs that have not finished, and whether the pool was told to
    stop. *)
Record workerPool := WorkerPool {
  arg_maxWorkers : Z;
  arg_minWorkers : Z;
  tasks : list job;
  poolStopped : bool
}.

(** A [*time.Timer] made by [time.AfterFunc]: the agent captured by the
    callback, the instant it fires at, and whether it is still pending. *)
Record timer := Timer { t_agent : string; t_at : Z; t_armed : bool }.

(** The store. Its last two fields are not in the source: [trace] records
    the calls of the callbacks and the bookkeeping of the jobs, and [draws]
    counts the [for ... range] loops over the backlog executed so far, so
    that each of them can visit the map in an order of its own. *)
Record store := Store {
  cache : lru;
  pool : workerPool;
  minUpdateInterval : Z;
  inflight : gset string;
  deferredUpdates : gmap string Z;
  deferredUpdatesTimer : option timer;
  stopped : bool;
  trace : list event;
  draws : nat
}.

Definition with_items (m : gmap string (option tagMap)) (s : store) : store :=
  Store (LRU (arg_size (cache s)) (arg_ttl (cache s)) m) (pool s)
        (minUpdateInterval s) (inflight s) (deferredUpdates s)
        (deferredUpdatesTimer s) (stopped s) (trace s) (draws s).

Definition with_tasks (l : list job) (s : store) : store :=
  Store (cache s)
        (WorkerPool (arg_maxWorkers (pool s)) (arg_minWorkers (pool s)) l (poolStopped (pool s)))
        (minUpdateInterval s) (inflight s) (deferredUpdates s)
        (deferredUpdatesTimer s) (stopped s) (trace s) (draws s).

Definition with_poolStopped (b : bool) (s : store) : store :=
  Store (cache s)
        (WorkerPool (arg_maxWorkers (pool s)) (arg_minWorkers (pool s)) (tasks (pool s)) b)
        (minUpdateInterval s) (inflight s) (deferredUpdates s)
        (deferredUpdatesTimer s) (stopped s) (trace s) (draws s).

Definition with_inflight (g : gset string) (s : store) : store :=
  Store (cache s) (pool s) (minUpdateInterval s) g (deferredUpdates s)
        (deferredUpdatesTimer s) (stopped s) (trace s) (draws s).

Definition with_deferredUpdates (m : gmap string Z) (s : store) : store :=
  Store (cache s) (pool s) (minUpdateInterval s) (inflight s) m
        (deferredUpdatesTimer s) (stopped s) (trace s) (draws s).

Definition with_timer (t : option timer) (s : store) : store :=
  Store (cache s) (pool s) (minUpdateInterval s) (inflight s)
        (deferredUpdates s) t (stopped s) (trace s) (draws s).

Definition with_stopped (b : bool) (s : store) : store :=
  Store (cache s) (pool s) (minUpdateInterval s) (inflight s)
        (deferredUpdates s) (deferredUpdatesTimer s) b (trace s) (draws s).

Definition log (ev : event) (s : store) : store :=
  Store (cache s) (pool s) (minUpdateInterval s) (inflight s)
        (deferredUpdates s) (deferredUpdatesTimer s) (stopped s)
        (trace s ++ [ev]) (draws s).

Definition with_draws (n : nat) (s : store) : store :=
  Store (cache s) (pool s) (minUpdateInterval s) (inflight s)
        (deferredUpdates s) (deferredUpdatesTimer s) (stopped s) (trace s) n.

(** ** The collaborators' operations *)

(** [s.cache.Get(agent)]: the entry and whether there is one. *)
Definition Get (agent : string) (s : store) : option (option tagMap) :=
  items (cache s) !! agent.

(** [s.cache.Add(agent, entry)] *)
Definition Add (agent : string) (e : option tagMap) (s : store) : store :=
  with_items (<[agent := e]> (items (cache s))) s.

(** [s.cache.Purge()] *)
Definition Purge (s : store) : store := with_items ∅ s.

(** [s.pool.Stopped()] *)
Definition Stopped (s : store) : bool := poolStopped (pool s).

(** [s.pool.Submit(func() {...})] on a running pool. The pool is built
    with a queue of capacity 0, so the call may wait for a free worker; the
    job is in the pool when it returns. *)
Definition Submit (agent : string) (s : store) : store :=
  log (EvSubmit agent) (with_tasks (tasks (pool s) ++ [Job agent PcUpdate]) s).

(** [s.inflight.LoadOrStore(agent, true)]: the new store and [loaded]. *)
Definition LoadOrStore (agent : string) (s : store) : store * bool :=
  if bool_decide (agent ∈ inflight s) then (s, true)
  else (with_inflight ({[agent]} ∪ inflight s) s, false).

(** [s.inflight.Delete(agent)] *)
Definition Delete (agent : string) (s : store) : store :=
  with_inflight (inflight s ∖ {[agent]}) s.

(** [s.notify(agent, entry)] called by [o]. *)
Definition notify (o : origin) (agent : string) (e : option tagMap) (s : store) : store :=
  log (EvNotify o agent e) s.

(** [t.Stop()] on a timer that may be nil. *)
Definition stopTimer (t : option timer) : option timer :=
  match t with
  | Some t => Some (Timer (t_agent t) (t_at t) false)
  | None => None
  end.

(** ** The store *)

(** [newStore] checks none of its arguments: it hands [size] and [ttl] to
    [expirable.NewLRU], [workers] and [workers/2+1] to [pond.New], and
    keeps [minUpdateInterval]. *)
Definition newStore (size ttl workers minUpdateInterval : Z) : store :=
  Store (LRU size ttl ∅)
        (WorkerPool workers (Z.quot workers 2 + 1) [] false)
        minUpdateInterval ∅ ∅ None false [] 0%nat.

(** The loop of [refreshTimer] over the backlog, in the order [l]. *)
Definition scan (l : list (string * Z)) : string * Z :=
  foldl (λ acc kt,
           if bool_decide (acc.1 = "") || (kt.2 <? acc.2) then kt else acc)
        ("", zeroTime) l.

Section store.

(** The order in which [for k, t := range m] visits a map. Go leaves it
    unspecified and draws it anew for every loop, so it is a parameter of
    the store with the number of the loop as its first argument: [range n m]
    is the order in which the [n]-th loop executed on the store visits [m].
    That every entry is visited once is assumed where a proof needs it. *)
Variable range : nat → gmap string Z → list (string * Z).

Definition refreshTimer (s : store) : store :=
  let s := with_timer (stopTimer (deferredUpdatesTimer s)) s in
  if bool_decide (size (deferredUpdates s) = 0%nat) || stopped s then s
  else
    let found := scan (range (draws s) (deferredUpdates s)) in
    with_draws (S (draws s)) (with_timer (Some (Timer found.1 found.2 true)) s).

Definition addBacklog (agent : string) (earliest : Z) (s : store) : store :=
  if stopped s then s
  else
    match deferredUpdates s !! agent with
    | Some t =>
        if earliest <? t
        then refreshTimer (with_deferredUpdates (<[agent := earliest]> (deferredUpdates s)) s)
        else s
    | None =>
        refreshTimer (with_deferredUpdates (<[agent := earliest]> (deferredUpdates s)) s)
    end.

Definition removeBacklog (agent : string) (s : store) : store :=
  let s := with_deferredUpdates (delete agent (deferredUpdates s)) s in
  if stopped s then s else refreshTimer s.

Definition enqueue (agent : string) (s : store) : store :=
  let '(s, loaded) := LoadOrStore agent s in
  if loaded || Stopped s then s else Submit agent s.

(** [lookup] at the instant [now]; [None] is the nil-pointer panic of
    [entry.rows] on a cached nil entry. *)
Definition lookup (now : Z) (agent index : string) (s : store) : option store :=
  match Get agent s with
  | None => Some (enqueue agent s)
  | Some None => None
  | Some (Some entry) =>
      match rows entry !! index with
      | None =>
          if 0 <? minUpdateInterval s then
            if minUpdateInterval s <? since now (created entry)
            then Some (enqueue agent s)
            else Some (notify Caller agent (Some entry)
                         (addBacklog agent (created entry + minUpdateInterval s) s))
          else Some (notify Caller agent (Some entry) s)
      | Some _ => Some (notify Caller agent (Some entry) s)
      end
  end.

(** [n] calls of [lookup] for the same key, one after the other. *)
Fixpoint lookups (n : nat) (now : Z) (agent index : string) (s : store) : option store :=
  match n with
  | O => Some s
  | S n =>
      match lookup now agent index s with
      | None => None
      | Some s => lookups n now agent index s
      end
  end.

(** The locked part of [destroy]. *)
Definition destroy_locked (s : store) : store :=
  with_timer None (with_deferredUpdates ∅ (with_stopped true s)).

(** [s.pool.StopAndWait()] up to the point where it waits. *)
Definition StopAndWait (s : store) : store := with_poolStopped true s.

(** [destroy] up to the point where it waits for the pool. *)
Definition destroy (s : store) : store := StopAndWait (destroy_locked s).

Definition purge (s : store) : store := Purge s.

(** One statement of the closure of [enqueue], when the callback it calls,
    if it calls one, returns; [upd] is what [s.update] returns when it is
    the statement executed. A callback that panics ends the job instead:
    that is the step [XPanic] of the extended scheduler below. *)
Definition job_step (upd : option tagMap) (j : job) (s : store) : store * option job :=
  let agent := jagent j in
  match jpc j with
  | PcUpdate => (log (EvUpdate agent upd) s, Some (Job agent (PcCacheAdd upd)))
  | PcCacheAdd e => (log (EvCacheAdd agent e) (Add agent e s), Some (Job agent (PcRemoveBacklog e)))
  | PcRemoveBacklog e => (log (EvRemoveBacklog agent) (removeBacklog agent s), Some (Job agent (PcNotify e)))
  | PcNotify e => (notify Worker agent e s, Some (Job agent (PcDelete e)))
  | PcDelete _ => (log (EvRelease agent) (Delete agent s), None)
  end.

(** The whole closure, run without interruption, when both callbacks
    return. *)
Definition run_job (upd : option tagMap) (agent : string) (s : store) : store :=
  let entry := upd in
  let s := log (EvUpdate agent entry) s in
  let s := log (EvCacheAdd agent entry) (Add agent entry s) in
  let s := log (EvRemoveBacklog agent) (removeBacklog agent s) in
  let s := notify Worker agent entry s in
  log (EvRelease agent) (Delete agent s).

(** ** Calls in progress

    A frame is a call of the store's API (or of the timer's callback) that
    has not returned, with the shared-state access it performs next.
    Between two such accesses any other thread may run. *)
Inductive frame :=
| FLookup (agent index : string)       (* lookup entered, before cache.Get *)
| FEnqueue (agent : string)            (* enqueue entered, before LoadOrStore *)
| FSubmit (agent : string)             (* LoadOrStore stored the mark *)
| FAddBacklog (agent : string) (earliest : Z) (e : option tagMap)
| FNotify (agent : string) (e : option tagMap)
| FDestroy                             (* destroy entered, before Lock *)
| FStopAndWait                         (* after Unlock, before StopAndWait *)
| FWait                                (* inside StopAndWait, pool stopped *)
| FPurge.

(** The next access of a frame: the new store and what is left of the
    call ([None] when it returns). No result when the frame panics
    ([FLookup] on a cached nil entry) or cannot proceed yet ([FWait] while
    jobs are unfinished). *)
Definition frame_step (now : Z) (f : frame) (s : store) : option (store * option frame) :=
  match f with
  | FLookup agent index =>
      match Get agent s with
      | None => Some (s, Some (FEnqueue agent))
      | Some None => None
      | Some (Some entry) =>
          match rows entry !! index with
          | None =>
              if 0 <? minUpdateInterval s then
                if minUpdateInterval s <? since now (created entry)
                then Some (s, Some (FEnqueue agent))
                else Some (s, Some (FAddBacklog agent (created entry + minUpdateInterval s)
                                                (Some entry)))
              else Some (s, Some (FNotify agent (Some entry)))
          | Some _ => Some (s, Some (FNotify agent (Some entry)))
          end
      end
  | FEnqueue agent =>
      let '(s, loaded) := LoadOrStore agent s in
      if loaded then Some (s, None) else Some (s, Some (FSubmit agent))
  | FSubmit agent =>
      if Stopped s then Some (s, None) else Some (Submit agent s, None)
  | FAddBacklog agent earliest e =>
      Some (addBacklog agent earliest s, Some (FNotify agent e))
  | FNotify agent e => Some (notify Caller agent e s, None)
  | FDestroy => Some (destroy_locked s, Some FStopAndWait)
  | FStopAndWait => Some (StopAndWait s, Some FWait)
  | FWait =>
      match tasks (pool s) with
      | [] => Some (log EvDestroyed s, None)
      | _ :: _ => None
      end
  | FPurge => Some (purge s, None)
  end.

(** A frame run to its return without interruption. *)
Fixpoint run_frame (fuel : nat) (now : Z) (f : frame) (s : store) : option store :=
  match fuel with
  | O => None
  | S fuel =>
      match frame_step now f s with
      | None => None
      | Some (s, None) => Some s
      | Some (s, Some f) => run_frame fuel now f s
      end
  end.

(** ** The scheduler *)

Record world := World { sto : store; frames : list frame }.

Inductive call := CLookup (agent index : string) | CPurge | CDestroy.

Definition enter (c : call) : frame :=
  match c with
  | CLookup agent index => FLookup agent index
  | CPurge => FPurge
  | CDestroy => FDestroy
  end.

Inductive label :=
| LCall (c : call)                       (* a thread calls the store *)
| LRun (i : nat) (now : Z)               (* call i does its next access *)
| LWork (i : nat) (upd : option tagMap)  (* job i does its next statement *)
| LFire                                  (* the backlog timer fires *)
| LEvict (agent : string).               (* the cache expires or evicts an item *)

Definition step (l : label) (w : world) : option world :=
  match l with
  | LCall c => Some (World (sto w) (enter c :: frames w))
  | LRun i now =>
      match frames w !! i with
      | None => None
      | Some f =>
          match frame_step now f (sto w) with
          | None => None
          | Some (s, f') => Some (World s (option_list f' ++ delete i (frames w)))
          end
      end
  | LWork i upd =>
      match tasks (pool (sto w)) !! i with
      | None => None
      | Some j =>
          let '(s, j') := job_step upd j (sto w) in
          Some (World (with_tasks (option_list j' ++ delete i (tasks (pool s))) s)
                      (frames w))
      end
  | LFire =>
      match deferredUpdatesTimer (sto w) with
      | Some t =>
          if t_armed t
          then Some (World (with_timer (stopTimer (Some t)) (sto w))
                           (FEnqueue (t_agent t) :: frames w))
          else None
      | None => None
      end
  | LEvict agent =>
      Some (World (with_items (delete agent (items (cache (sto w)))) (sto w)) (frames w))
  end.

Fixpoint run (ls : list label) (w : world) : option world :=
  match ls with
  | [] => Some w
  | l :: ls =>
      match step l w with
      | None => None
      | Some w => run ls w
      end
  end.

(** The worlds the store can be in, from its construction on. *)
Definition reachable (w : world) : Prop :=
  ∃ size ttl workers interval ls,
    run ls (World (newStore size ttl workers interval) []) = Some w.

(** ** Callbacks that panic

    [update] and [notify] belong to the collaborator. The closure of
    [enqueue] calls them without a [defer]: when one of them panics inside a
    job, the statements after the call are not executed, the pool recovers
    the panic, and the job is over. When [notify] panics in a [lookup], the
    call is over too (the panic goes to its caller). The labels above are
    the steps in which the callbacks return; the extended scheduler adds the
    panic of the callback that a job or a call is about to call. *)

Definition calls_back (p : pc) : bool :=
  match p with PcUpdate | PcNotify _ => true | _ => false end.

Inductive xlabel :=
| XStep (l : label)      (* a step above *)
| XPanic (i : nat)       (* the callback that job i is about to call panics *)
| XPanicCall (i : nat).  (* the notifier that call i is about to call panics *)

Definition xstep (l : xlabel) (w : world) : option world :=
  match l with
  | XStep l => step l w
  | XPanic i =>
      match tasks (pool (sto w)) !! i with
      | Some j =>
          if calls_back (jpc j)
          then Some (World (with_tasks (delete i (tasks (pool (sto w))))
                                       (log (EvPanic (jagent j)) (sto w)))
                           (frames w))
          else None
      | None => None
      end
  | XPanicCall i =>
      match frames w !! i with
      | Some (FNotify _ _) => Some (World (sto w) (delete i (frames w)))
      | _ => None
      end
  end.

Fixpoint xrun (ls : list xlabel) (w : world) : option world :=
  match ls with
  | [] => Some w
  | l :: ls =>
      match xstep l w with
      | None => None
      | Some w => xrun ls w
      end
  end.

(** The worlds the store can be in when callbacks may panic. *)
Definition xreachable (w : world) : Prop :=
  ∃ size ttl workers interval ls,
    xrun ls (World (newStore size ttl workers interval) []) = Some w.

(** ** The transitions of the scheduler

    What one step does to the world, one case per atomic access. The
    order of the calls in progress and of the jobs of the pool carries no
    meaning, so the cases are stated up to permutation. *)

Inductive stepped : world → world → Prop :=
| st_call s fs c :
    stepped (World s fs) (World s (enter c :: fs))
| st_lookup_enqueue s fs rest agent index :
    fs ≡ₚ FLookup agent index :: rest →
    stepped (World s fs) (World s (FEnqueue agent :: rest))
| st_lookup_notify s fs rest agent index e :
    fs ≡ₚ FLookup agent index :: rest →
    Get agent s = Some (Some e) →
    stepped (World s fs) (World s (FNotify agent (Some e) :: rest))
| st_lookup_backlog s fs rest agent index e :
    fs ≡ₚ FLookup agent index :: rest →
    Get agent s = Some (Some e) →
    0 < minUpdateInterval s →
    stepped (World s fs)
            (World s (FAddBacklog agent (created e + minUpdateInterval s) (Some e) :: rest))
| st_loaded s fs rest agent :
    fs ≡ₚ FEnqueue agent :: rest →
    agent ∈ inflight s →
    stepped (World s fs) (World s rest)
| st_stored s fs rest agent :
    fs ≡ₚ FEnqueue agent :: rest →
    agent ∉ inflight s →
    stepped (World s fs)
            (World (with_inflight ({[agent]} ∪ inflight s) s) (FSubmit agent :: rest))
| st_dropped s fs rest agent :
    fs ≡ₚ FSubmit agent :: rest →
    Stopped s = true →
    stepped (World s fs) (World s rest)
| st_submitted s fs rest agent :
    fs ≡ₚ FSubmit agent :: rest →
    Stopped s = false →
    stepped (World s fs) (World (Submit agent s) rest)
| st_backlog s fs rest agent earliest e :
    fs ≡ₚ FAddBacklog agent earliest e :: rest →
    stepped (World s fs) (World (addBacklog agent earliest s) (FNotify agent e :: rest))
| st_notify s fs rest agent e :
    fs ≡ₚ FNotify agent e :: rest →
    stepped (World s fs) (World (notify Caller agent e s) rest)
| st_destroy s fs rest :
    fs ≡ₚ FDestroy :: rest →
    stepped (World s fs) (World (destroy_locked s) (FStopAndWait :: rest))
| st_stop s fs rest :
    fs ≡ₚ FStopAndWait :: rest →
    stepped (World s fs) (World (StopAndWait s) (FWait :: rest))
| st_return s fs rest :
    fs ≡ₚ FWait :: rest →
    tasks (pool s) = [] →
    stepped (World s fs) (World (log EvDestroyed s) rest)
| st_purge s fs rest :
    fs ≡ₚ FPurge :: rest →
    stepped (World s fs) (World (purge s) rest)
| st_update s fs js agent upd :
    tasks (pool s) ≡ₚ Job agent PcUpdate :: js →
    stepped (World s fs)
            (World (with_tasks (Job agent (PcCacheAdd upd) :: js)
                               (log (EvUpdate agent upd) s)) fs)
| st_cacheadd s fs js agent e :
    tasks (pool s) ≡ₚ Job agent (PcCacheAdd e) :: js →
    stepped (World s fs)
            (World (with_tasks (Job agent (PcRemoveBacklog e) :: js)
                               (log (EvCacheAdd agent e) (Add agent e s))) fs)
| st_unbacklog s fs js agent e :
    tasks (pool s) ≡ₚ Job agent (PcRemoveBacklog e) :: js →
    stepped (World s fs)
            (World (with_tasks (Job agent (PcNotify e) :: js)
                               (log (EvRemoveBacklog agent) (removeBacklog agent s))) fs)
| st_jnotify s fs js agent e :
    tasks (pool s) ≡ₚ Job agent (PcNotify e) :: js →
    stepped (World s fs)
            (World (with_tasks (Job agent (PcDelete e) :: js)
                               (notify Worker agent e s)) fs)
| st_release s fs js agent e :
    tasks (pool s) ≡ₚ Job agent (PcDelete e) :: js →
    stepped (World s fs)
            (World (with_tasks js (log (EvRelease agent) (Delete agent s))) fs)
| st_fire s fs t :
    deferredUpdatesTimer s = Some t →
    t_armed t = true →
    stepped (World s fs)
            (World (with_timer (stopTimer (Some t)) s) (FEnqueue (t_agent t) :: fs))
| st_evict s fs agent :
    stepped (World s fs) (World (with_items (delete agent (items (cache s))) s) fs).

(** The transitions of the extended scheduler. *)
Inductive xstepped : world → world → Prop :=
| xs_step w w' :
    stepped w w' →
    xstepped w w'
| xs_panic s fs js j :
    tasks (pool s) ≡ₚ j :: js →
    calls_back (jpc j) = true →
    xstepped (World s fs) (World (with_tasks js (log (EvPanic (jagent j)) s)) fs)
| xs_panic_call s fs rest agent e :
    fs ≡ₚ FNotify agent e :: rest →
    xstepped (World s fs) (World s rest).

(** ** Observations *)

Definition submit_agent (f : frame) : option string :=
  match f with FSubmit agent => Some agent | _ => None end.

(** The agents that hold the in-flight mark through a job or through an
    [enqueue] that is about to submit one. *)
Definition owners (w : world) : list string :=
  (jagent <$> tasks (pool (sto w))) ++ omap submit_agent (frames w).

(** At most one owner per agent, and every owner is marked in flight. *)
Definition owners_ok (w : world) : Prop :=
  NoDup (owners w) ∧ ∀ k, k ∈ owners w → k ∈ inflight (sto w).

(** While the pool runs, every mark has an owner. *)
Definition marks_owned (w : world) : Prop :=
  Stopped (sto w) = false → ∀ k, k ∈ inflight (sto w) → k ∈ owners w.

(** The events of the resolution jobs of [agent]. *)
Definition job_event (agent : string) (ev : event) : bool :=
  match ev with
  | EvUpdate a _ | EvCacheAdd a _ | EvRemoveBacklog a
  | EvNotify Worker a _ | EvRelease a => bool_decide (a = agent)
  | _ => false
  end.

(** The events of one complete resolution job that resolved [e]. *)
Definition cycle (agent : string) (e : option tagMap) : list event :=
  [EvUpdate agent e; EvCacheAdd agent e; EvRemoveBacklog agent;
   EvNotify Worker agent e; EvRelease agent].

(** The events a job has produced when it is about to execute [p]. *)
Definition done_part (agent : string) (p : pc) : list event :=
  match p with
  | PcUpdate => []
  | PcCacheAdd e => [EvUpdate agent e]
  | PcRemoveBacklog e => [EvUpdate agent e; EvCacheAdd agent e]
  | PcNotify e => [EvUpdate agent e; EvCacheAdd agent e; EvRemoveBacklog agent]
  | PcDelete e => [EvUpdate agent e; EvCacheAdd agent e; EvRemoveBacklog agent;
                   EvNotify Worker agent e]
  end.

(** The events of the resolution jobs of [agent], in the order they
    happened. *)
Definition job_trace (agent : string) (s : store) : list event :=
  filter (λ ev, job_event agent ev) (trace s).

(** The job events of [agent] are complete cycles followed by what the job
    of [agent] in the pool, if there is one, has done so far. *)
Definition shape (agent : string) (w : world) : Prop :=
  ∃ es,
    (agent ∉ jagent <$> tasks (pool (sto w)) →
     job_trace agent (sto w) = es ≫= cycle agent)
    ∧ (∀ p, Job agent p ∈ tasks (pool (sto w)) →
            job_trace agent (sto w) = (es ≫= cycle agent) ++ done_part agent p).

Definition is_submit (agent : string) (ev : event) : bool :=
  match ev with EvSubmit a => bool_decide (a = agent) | _ => false end.

Definition is_update (agent : string) (ev : event) : bool :=
  match ev with EvUpdate a _ => bool_decide (a = agent) | _ => false end.

Definition is_release (agent : string) (ev : event) : bool :=
  match ev with EvRelease a => bool_decide (a = agent) | _ => false end.

(** How many events of a trace satisfy [f]. *)
Definition count (f : event → bool) (l : list event) : nat :=
  length (filter (λ ev, f ev) l).

(** How many jobs of the pool resolve [agent]. *)
Definition jobs_of (agent : string) (js : list job) : nat :=
  length (filter (λ j, jagent j = agent) js).

Definition is_panic (agent : string) (ev : event) : bool :=
  match ev with EvPanic a => bool_decide (a = agent) | _ => false end.

(** Every job the pool took has finished or is still in the pool. *)
Definition balance (agent : string) (w : world) : Prop :=
  count (is_submit agent) (trace (sto w)) =
  (count (is_release agent) (trace (sto w)) + jobs_of agent (tasks (pool (sto w))))%nat.

(** The same when callbacks may panic: a job the pool took has released
    its mark, or has ended in a panic, or is still in the pool. *)
Definition xbalance (agent : string) (w : world) : Prop :=
  count (is_submit agent) (trace (sto w)) =
  (count (is_release agent) (trace (sto w))
   + count (is_panic agent) (trace (sto w))
   + jobs_of agent (tasks (pool (sto w))))%nat.

(** While the pool runs, the mark of a key has an owner unless a callback
    has panicked in a job of the key. *)
Definition mark_owned (k : string) (w : world) : Prop :=
  Stopped (sto w) = false →
  k ∈ inflight (sto w) →
  EvPanic k ∉ trace (sto w) →
  k ∈ owners w.

(** A mark that nobody will remove: the key is marked and has no owner. *)
Definition orphan (k : string) (w : world) : Prop :=
  k ∈ inflight (sto w) ∧ k ∉ owners w.

(** What holds in every world, panics included. *)
Definition xinvariant (w : world) : Prop :=
  owners_ok w ∧ (∀ k, mark_owned k w) ∧ (∀ agent, xbalance agent w).

(** What holds while and after the store shuts down. *)
Definition shutdown_ok (w : world) : Prop :=
  (stopped (sto w) = true →
   deferredUpdates (sto w) = ∅ ∧
   ∀ t, deferredUpdatesTimer (sto w) = Some t → t_armed t = false)
  ∧ (FStopAndWait ∈ frames w → stopped (sto w) = true)
  ∧ (FWait ∈ frames w → Stopped (sto w) = true)
  ∧ (Stopped (sto w) = true → stopped (sto w) = true)
  ∧ (EvDestroyed ∈ trace (sto w) → Stopped (sto w) = true ∧ tasks (pool (sto w)) = []).

(** No job is submitted after [destroy] has returned. *)
Definition quiet (l : list event) : Prop :=
  ∀ pre post, l = pre ++ EvDestroyed :: post → ∀ agent, EvSubmit agent ∉ post.

(** A store without a minimum update interval has no backlog. *)
Definition unthrottled (w : world) : Prop :=
  minUpdateInterval (sto w) ≤ 0 →
  deferredUpdates (sto w) = ∅ ∧ ∀ agent t e, FAddBacklog agent t e ∉ frames w.

(** A pending timer is one that a loop of [refreshTimer] computed from the
    backlog as it is now. *)
Definition timer_ok (w : world) : Prop :=
  ∀ t, deferredUpdatesTimer (sto w) = Some t → t_armed t = true →
       stopped (sto w) = false
       ∧ deferredUpdates (sto w) ≠ ∅
       ∧ ∃ n, (t_agent t, t_at t) = scan (range n (deferredUpdates (sto w))).

(** How many statements a job has left. *)
Definition remaining (p : pc) : nat :=
  match p with
  | PcUpdate => 5
  | PcCacheAdd _ => 4
  | PcRemoveBacklog _ => 3
  | PcNotify _ => 2
  | PcDelete _ => 1
  end.

(** Whether a job has called [update] already. *)
Definition started (p : pc) : bool :=
  match p with PcUpdate => false | _ => true end.

(** All of the above. *)
Definition invariant (w : world) : Prop :=
  owners_ok w ∧ marks_owned w ∧ (∀ agent, shape agent w) ∧ (∀ agent, balance agent w)
  ∧ shutdown_ok w ∧ quiet (trace (sto w)) ∧ unthrottled w ∧ timer_ok w.

(** ** Where the data comes from *)

(** What the cache holds for a key was put there by a job of that key. *)
Definition cache_prov (w : world) : Prop :=
  ∀ a e, items (cache (sto w)) !! a = Some e → EvCacheAdd a e ∈ trace (sto w).

(** What a call in progress carries was read from the cache. *)
Definition frames_prov (w : world) : Prop :=
  (∀ a e, FNotify a e ∈ frames w →
          (∃ entry, e = Some entry) ∧ EvCacheAdd a e ∈ trace (sto w))
  ∧ (∀ a t e, FAddBacklog a t e ∈ frames w →
              ∃ entry, e = Some entry
                       ∧ t = created entry + minUpdateInterval (sto w)
                       ∧ EvCacheAdd a e ∈ trace (sto w)).

(** What a caller handed to the notifier was read from the cache. *)
Definition caller_prov (w : world) : Prop :=
  ∀ a e, EvNotify Caller a e ∈ trace (sto w) →
         (∃ entry, e = Some entry) ∧ EvCacheAdd a e ∈ trace (sto w).

(** A deadline of the backlog is the creation time of an entry of that key
    plus the minimum update interval. *)
Definition deadline_prov (w : world) : Prop :=
  ∀ a d, deferredUpdates (sto w) !! a = Some d →
         ∃ entry, d = created entry + minUpdateInterval (sto w)
                  ∧ EvCacheAdd a (Some entry) ∈ trace (sto w).

Definition provenance (w : world) : Prop :=
  cache_prov w ∧ frames_prov w ∧ caller_prov w ∧ deadline_prov w.

End store.


(** * Examples *)

(** Two iteration orders: the one of [map_to_list], and its reverse. *)
Definition range_fwd (n : nat) (m : gmap string Z) : list (string * Z) :=
  map_to_list m.
Definition range_rev (n : nat) (m : gmap string Z) : list (string * Z) :=
  reverse (map_to_list m).

(** An entry resolved at the instant 100, with one row. *)
Definition ex_entry : tagMap :=
  TagMap 100 {["eth0" := {["ifName" := "eth0"]}]}.

(** A new store with 16 cache slots, a TTL of 3600, 4 workers. *)
Definition ex_boot (interval : Z) : world :=
  World (newStore 16 3600 4 interval) [].

(** A lookup of the uncached key "sw1", and the job it starts, which
    resolves [ex_entry]. *)
Definition ex_resolve : list label :=
  [LCall (CLookup "sw1" "eth0"); LRun 0 100; LRun 0 100; LRun 0 100;
   LWork 0 (Some ex_entry); LWork 0 None; LWork 0 None; LWork 0 None; LWork 0 None].

(** The world after [ex_resolve]. *)
Definition ex_cached (interval : Z) : world :=
  World (Store (LRU 16 3600 {["sw1" := Some ex_entry]})
               (WorkerPool 4 3 [] false)
               interval ∅ ∅ None false
               (EvSubmit "sw1" :: cycle "sw1" (Some ex_entry)) 0%nat)
        [].

(** The same, while the job is about to call the notifier. *)
Definition ex_resolving : list label :=
  [LCall (CLookup "sw1" "eth0"); LRun 0 100; LRun 0 100; LRun 0 100;
   LWork 0 (Some ex_entry); LWork 0 None; LWork 0 None].

Definition ex_midjob : world :=
  World (Store (LRU 16 3600 {["sw1" := Some ex_entry]})
               (WorkerPool 4 3 [Job "sw1" (PcNotify (Some ex_entry))] false)
               30 {["sw1"]} ∅ None false
               [EvSubmit "sw1"; EvUpdate "sw1" (Some ex_entry);
                EvCacheAdd "sw1" (Some ex_entry); EvRemoveBacklog "sw1"] 0%nat)
        [].

(** [destroy] on a new store. *)
Definition ex_shutdown : list label :=
  [LCall CDestroy; LRun 0 0; LRun 0 0; LRun 0 0].

(** A lookup of "sw3" starts a job; [destroy] is called while the job
    runs and waits for it; the job finishes; [destroy] returns. *)
Definition ex_busy_shutdown : list label :=
  [LCall (CLookup "sw3" "eth0"); LRun 0 0; LRun 0 0; LRun 0 0;
   LWork 0 (Some ex_entry);
   LCall CDestroy; LRun 0 0; LRun 0 0;
   LWork 0 None; LWork 0 None; LWork 0 None; LWork 0 None;
   LRun 0 0].

Definition ex_drained : world :=
  World (Store (LRU 16 3600 {["sw3" := Some ex_entry]})
               (WorkerPool 4 3 [] true)
               30 ∅ ∅ None true
               (EvSubmit "sw3" :: cycle "sw3" (Some ex_entry) ++ [EvDestroyed]) 0%nat)
        [].

(** A lookup of "sw1" after [destroy], and the world it leaves when it
    follows [ex_shutdown]. *)
Definition ex_late_lookup : list label :=
  [LCall (CLookup "sw1" "eth0"); LRun 0 50; LRun 0 50; LRun 0 50].

Definition ex_orphan : world :=
  World (Store (LRU 16 3600 ∅) (WorkerPool 4 3 [] true) 30 {["sw1"]} ∅ None true [EvDestroyed] 0%nat) [].

(** Two keys, "a" resolved at 105 and the empty key at 100, both without
    rows; then a lookup of each at 106 with a minimum update interval of 10:
    first "a", then the empty key. *)
Definition ex_two_deadlines : list label :=
  [LCall (CLookup "a" "eth1"); LRun 0 105; LRun 0 105; LRun 0 105;
   LWork 0 (Some (TagMap 105 ∅)); LWork 0 None; LWork 0 None; LWork 0 None; LWork 0 None;
   LCall (CLookup "" "eth1"); LRun 0 100; LRun 0 100; LRun 0 100;
   LWork 0 (Some (TagMap 100 ∅)); LWork 0 None; LWork 0 None; LWork 0 None; LWork 0 None;
   LCall (CLookup "a" "eth1"); LRun 0 106; LRun 0 106; LRun 0 106;
   LCall (CLookup "" "eth1"); LRun 0 106; LRun 0 106; LRun 0 106].

(** A lookup of "sw1" for a row its entry does not have, at 110. *)
Definition ex_deferring : list label :=
  [LCall (CLookup "sw1" "eth1"); LRun 0 110; LRun 0 110; LRun 0 110].

(** The store after [ex_resolve] and [ex_deferring] with an interval of 30:
    "sw1" is in the backlog with the deadline 130 and the timer is set. *)
Definition ex_backlogged : store :=
  Store (LRU 16 3600 {["sw1" := Some ex_entry]})
        (WorkerPool 4 3 [] false)
        30 ∅ {["sw1" := 130]} (Some (Timer "sw1" 130 true)) false
        (EvSubmit "sw1" :: cycle "sw1" (Some ex_entry)
         ++ [EvNotify Caller "sw1" (Some ex_entry)]) 1%nat.

(** A lookup of the uncached key "sw2" whose job gets nil from [update]. *)
Definition ex_resolve_nil : list label :=
  [LCall (CLookup "sw2" "eth0"); LRun 0 100; LRun 0 100; LRun 0 100;
   LWork 0 None; LWork 0 None; LWork 0 None; LWork 0 None; LWork 0 None].

Definition ex_nil_cached : world :=
  World (Store (LRU 16 3600 {["sw2" := None]})
               (WorkerPool 4 3 [] false)
               30 ∅ ∅ None false
               (EvSubmit "sw2" :: cycle "sw2" None) 0%nat)
        [].

(** [destroy] called while the job of "sw3" runs, before the job goes on:
    the flag is set, the pool is stopped and [destroy] waits. *)
Definition ex_stopping : world :=
  World (Store (LRU 16 3600 ∅)
               (WorkerPool 4 3 [Job "sw3" (PcCacheAdd (Some ex_entry))] true)
               30 {["sw3"]} ∅ None true
               [EvSubmit "sw3"; EvUpdate "sw3" (Some ex_entry)] 0%nat)
        [FWait].

(** Five lookups of the uncached key "sw2": three arrive together, one of
    them stores the mark and submits the job, and the job calls the
    resolver; two more arrive while the job runs. *)
Definition ex_five_lookups : list label :=
  [LCall (CLookup "sw2" "eth0"); LCall (CLookup "sw2" "eth0"); LCall (CLookup "sw2" "eth0");
   LRun 2 0; LRun 2 0; LRun 2 0;
   LRun 0 0; LRun 1 0; LRun 0 0;
   LWork 0 (Some ex_entry);
   LCall (CLookup "sw2" "eth0"); LCall (CLookup "sw2" "eth0");
   LRun 0 0; LRun 0 0; LRun 0 0; LRun 0 0; LRun 0 0].

(** Five concurrent lookups of the uncached key "sw2": all read the cache,
    one stores the mark, the others find it, and the one that stored it
    reaches the pool. *)
Definition ex_five_late : list label :=
  [LCall (CLookup "sw2" "eth0"); LCall (CLookup "sw2" "eth0"); LCall (CLookup "sw2" "eth0");
   LCall (CLookup "sw2" "eth0"); LCall (CLookup "sw2" "eth0");
   LRun 4 50; LRun 4 50; LRun 4 50; LRun 4 50; LRun 4 50;
   LRun 0 50;
   LRun 1 50; LRun 1 50; LRun 1 50; LRun 1 50;
   LRun 0 50].

(** A second entry for "sw1", created at 120, without the row "eth1". *)
Definition ex_entry2 : tagMap :=
  TagMap 120 {["eth0" := {["ifName" := "eth0"]}]}.

(** After [ex_resolve]: a lookup of "sw1" reads the entry created at 100
    and is about to ask for the deadline 130; before it does, the entry is
    evicted and another lookup has "sw1" resolved again, with an entry
    created at 120; then the first lookup goes on. *)
Definition ex_stale : list label :=
  ex_resolve ++
  [LCall (CLookup "sw1" "eth1"); LRun 0 110;
   LEvict "sw1";
   LCall (CLookup "sw1" "eth0"); LRun 0 115; LRun 0 115; LRun 0 115;
   LWork 0 (Some ex_entry2); LWork 0 None; LWork 0 None; LWork 0 None; LWork 0 None;
   LRun 0 110; LRun 0 110].

(** The job of "sw1" has called the resolver; a lookup of "sw2" submits a
    second job, whose call of the resolver panics. *)
Definition ex_panic : list xlabel :=
  [XStep (LCall (CLookup "sw1" "eth0"));
   XStep (LRun 0 100); XStep (LRun 0 100); XStep (LRun 0 100);
   XStep (LWork 0 (Some ex_entry));
   XStep (LCall (CLookup "sw2" "eth0"));
   XStep (LRun 0 100); XStep (LRun 0 100); XStep (LRun 0 100);
   XPanic 1].

(** An order that changes from one loop to the next: the order of
    [map_to_list] at the even loops, its reverse at the odd ones. *)
Definition range_alt (n : nat) (m : gmap string Z) : list (string * Z) :=
  if Nat.even n then map_to_list m else reverse (map_to_list m).

(** A new store whose backlog has two keys with the same deadline. *)
Definition ex_tie : store :=
  with_deferredUpdates {["a" := 10; "b" := 10]} (newStore 16 3600 4 30).

(** Two keys, "a" resolved at 105 and "b" at 100, both without rows; then
    a lookup of each at 106 with a minimum update interval of 10: first "a",
    which gets the deadline 115, then "b", which gets the deadline 110. *)
Definition ex_two_keys : list label :=
  [LCall (CLookup "a" "eth1"); LRun 0 105; LRun 0 105; LRun 0 105;
   LWork 0 (Some (TagMap 105 ∅)); LWork 0 None; LWork 0 None; LWork 0 None; LWork 0 None;
   LCall (CLookup "b" "eth1"); LRun 0 100; LRun 0 100; LRun 0 100;
   LWork 0 (Some (TagMap 100 ∅)); LWork 0 None; LWork 0 None; LWork 0 None; LWork 0 None;
   LCall (CLookup "a" "eth1"); LRun 0 106; LRun 0 106; LRun 0 106;
   LCall (CLookup "b" "eth1"); LRun 0 106; LRun 0 106; LRun 0 106].

(** * Proofs *)

Section proofs.

Variable range : nat → gmap string Z → list (string * Z).

#[local] Abbreviation refreshTimer := (refreshTimer range).
#[local] Abbreviation addBacklog := (addBacklog range).
#[local] Abbreviation removeBacklog := (removeBacklog range).
#[local] Abbreviation lookup := (lookup range).
#[local] Abbreviation lookups := (lookups range).
#[local] Abbreviation job_step := (job_step range).
#[local] Abbreviation run_job := (run_job range).
#[local] Abbreviation frame_step := (frame_step range).
#[local] Abbreviation run_frame := (run_frame range).
#[local] Abbreviation step := (step range).
#[local] Abbreviation run := (run range).
#[local] Abbreviation stepped := (stepped range).
#[local] Abbreviation reachable := (reachable range).
#[local] Abbreviation invariant := (invariant range).
#[local] Abbreviation xstep := (xstep range).
#[local] Abbreviation xrun := (xrun range).
#[local] Abbreviation xstepped := (xstepped range).
#[local] Abbreviation xreachable := (xreachable range).

(** ** What the backlog operations leave alone *)

Lemma store_eta s :
  s = with_draws (draws s)
        (with_timer (deferredUpdatesTimer s) (with_deferredUpdates (deferredUpdates s) s)).
Proof. by destruct s. Qed.

Lemma refreshTimer_shape s :
  ∃ T N, refreshTimer s = with_draws N (with_timer T s).
Proof.
  unfold refreshTimer.
  destruct (bool_decide _ || _); simpl.
  - exists (stopTimer (deferredUpdatesTimer s)), (draws s). by destruct s.
  - eexists _, _. unfold with_draws, with_timer. simpl. reflexivity.
Qed.

Lemma addBacklog_shape agent earliest s :
  ∃ D T N, addBacklog agent earliest s
           = with_draws N (with_timer T (with_deferredUpdates D s)).
Proof.
  unfold addBacklog.
  destruct (stopped s); [eexists _, _, _; apply store_eta|].
  destruct (deferredUpdates s !! agent) as [t|]; [destruct (earliest <? t)|].
  2: eexists _, _, _; apply store_eta.
  all: match goal with |- context [refreshTimer ?x] =>
         destruct (refreshTimer_shape x) as (T & N & ->) end;
       eexists _, T, N; destruct s; reflexivity.
Qed.

Lemma removeBacklog_shape agent s :
  ∃ D T N, removeBacklog agent s
           = with_draws N (with_timer T (with_deferredUpdates D s)).
Proof.
  unfold removeBacklog; simpl.
  destruct (stopped s).
  - eexists (delete agent (deferredUpdates s)), (deferredUpdatesTimer s), (draws s).
    by destruct s.
  - match goal with |- context [refreshTimer ?x] =>
      destruct (refreshTimer_shape x) as (T & N & ->) end.
    by eexists (delete agent (deferredUpdates s)), T, N.
Qed.

Lemma job_step_tasks upd j s :
  tasks (pool (job_step upd j s).1) = tasks (pool s).
Proof.
  destruct j as [a p]; destruct p; simpl; try reflexivity.
  by destruct (removeBacklog_shape a s) as (D & T & ? & ->).
Qed.

Lemma step_stepped l w w' : step l w = Some w' → stepped w w'.
Proof.
  destruct w as [s fs].
  destruct l as [c | i now | i upd | | a]; simpl; intros H.
  - injection H as <-. constructor.
  - destruct (fs !! i) as [f|] eqn:Hf; [|discriminate].
    pose proof (delete_Permutation _ _ _ Hf) as Hperm.
    destruct f; simpl in H.
    + unfold Get in *.
      destruct (items (cache s) !! agent) as [[e|]|] eqn:Hget; try discriminate.
      * destruct (rows e !! index).
        { injection H as <-. by eapply st_lookup_notify. }
        destruct (0 <? minUpdateInterval s) eqn:HI.
        { destruct (minUpdateInterval s <? since now (created e)).
          - injection H as <-. by eapply st_lookup_enqueue.
          - injection H as <-. eapply st_lookup_backlog; [done..|lia]. }
        injection H as <-. by eapply st_lookup_notify.
      * injection H as <-. by eapply st_lookup_enqueue.
    + unfold LoadOrStore in H. case_bool_decide; injection H as <-.
      * by eapply st_loaded.
      * by eapply st_stored.
    + destruct (Stopped s) eqn:Hs; injection H as <-.
      * by eapply st_dropped.
      * by eapply st_submitted.
    + injection H as <-. by eapply st_backlog.
    + injection H as <-. by eapply st_notify.
    + injection H as <-. by eapply st_destroy.
    + injection H as <-. by eapply st_stop.
    + destruct (tasks (pool s)) eqn:Ht; [|discriminate].
      injection H as <-. by eapply st_return.
    + injection H as <-. by eapply st_purge.
  - destruct (tasks (pool s) !! i) as [j|] eqn:Hj; [|discriminate].
    pose proof (delete_Permutation _ _ _ Hj) as Hperm.
    pose proof (job_step_tasks upd j s) as Ht.
    destruct (job_step upd j s) as [s1 j'] eqn:Hstep.
    injection H as <-. simpl in Ht. rewrite Ht.
    destruct j as [agent p]; destruct p; simpl in Hstep;
      injection Hstep as <- <-; simpl.
    + by eapply st_update.
    + by eapply st_cacheadd.
    + by eapply st_unbacklog.
    + by eapply st_jnotify.
    + by eapply st_release.
  - destruct (deferredUpdatesTimer s) as [t|] eqn:Ht; [|discriminate].
    destruct (t_armed t) eqn:Ha; [|discriminate].
    injection H as <-. by eapply st_fire.
  - injection H as <-. constructor.
Qed.

Lemma run_invariant (P : world → Prop) :
  (∀ w w', stepped w w' → P w → P w') →
  ∀ ls w w', run ls w = Some w' → P w → P w'.
Proof.
  intros Hstep ls. induction ls as [|l ls IH]; simpl; intros w w' H Hw.
  - by injection H as <-.
  - destruct (step l w) as [w1|] eqn:Hl; [|discriminate].
    eapply IH; [exact H|]. eapply Hstep; [|exact Hw]. by eapply step_stepped.
Qed.

Lemma reachable_invariant (P : world → Prop) :
  (∀ size ttl workers interval, P (World (newStore size ttl workers interval) [])) →
  (∀ w w', stepped w w' → P w → P w') →
  ∀ w, reachable w → P w.
Proof.
  intros Hinit Hstep w (size & ttl & workers & interval & ls & Hrun).
  eapply run_invariant; [exact Hstep|exact Hrun|apply Hinit].
Qed.

Ltac forget_backlog :=
  repeat match goal with
    | |- context [addBacklog ?a ?t ?s] =>
        destruct (addBacklog_shape a t s) as (? & ? & ? & ->)
    | |- context [removeBacklog ?a ?s] =>
        destruct (removeBacklog_shape a s) as (? & ? & ? & ->)
    end.

Ltac refold :=
  repeat match goal with
    | |- context [list_omap ?A ?B ?f ?l] => change (list_omap A B f l) with (omap f l)
    | H : context [list_omap ?A ?B ?f ?l] |- _ => change (list_omap A B f l) with (omap f l) in H
    | |- context [list_fmap ?A ?B ?f ?l] => change (list_fmap A B f l) with (f <$> l)
    | H : context [list_fmap ?A ?B ?f ?l] |- _ => change (list_fmap A B f l) with (f <$> l) in H
    end.

(** ** One job per agent *)

Lemma owners_ok_stepped w w' : stepped w w' → owners_ok w → owners_ok w'.
Proof.
  intros Hst [Hnd Hin]. unfold owners_ok, owners in *.
  destruct Hst; simpl in *; forget_backlog; simpl in *;
    try (match goal with H : _ ≡ₚ _ |- _ =>
           rewrite H in Hnd; setoid_rewrite H in Hin; clear H end);
    simpl in *; refold.
  all: try (split; assumption).
  all: try (destruct c; split; assumption).
  all: rewrite ?fmap_app, ?fmap_cons in *; simpl in *; refold.
  all: pose proof (@NoDup_nil_2 string).
  all: rewrite ?NoDup_app, ?NoDup_cons, ?NoDup_app in *.
  all: set_solver.
Qed.

(** ** Marks held while the pool runs *)

Lemma marks_owned_stepped w w' : stepped w w' → marks_owned w → marks_owned w'.
Proof.
  intros Hst Hin. unfold marks_owned, owners, Stopped in *.
  destruct Hst; simpl in *; forget_backlog; simpl in *;
    try (match goal with H : _ ≡ₚ _ |- _ => setoid_rewrite H in Hin; clear H end);
    simpl in *; refold.
  all: try assumption.
  all: try (destruct c; assumption).
  all: rewrite ?fmap_app, ?fmap_cons in *; simpl in *; refold.
  all: unfold Stopped in *; try congruence.
  all: set_solver.
Qed.

(** ** The order of a job's statements *)

Lemma decide_bool_decide_true {A} (P : Prop) `{Decision P} (x y : A) :
  P → (if decide (bool_decide P) is left _ then x else y) = x.
Proof. intros HP. destruct (decide _) as [|Hn]; [done|]. by rewrite bool_decide_true in Hn. Qed.

Lemma decide_bool_decide_false {A} (P : Prop) `{Decision P} (x y : A) :
  ¬ P → (if decide (bool_decide P) is left _ then x else y) = y.
Proof. intros HP. destruct (decide _) as [Hn|]; [|done]. by rewrite bool_decide_false in Hn. Qed.

Lemma job_elem_of_fmap agent p (js : list job) :
  Job agent p ∈ js → agent ∈ jagent <$> js.
Proof. intros H. apply list_elem_of_fmap. by exists (Job agent p). Qed.

Lemma shape_stepped agent w w' :
  stepped w w' → owners_ok w → shape agent w → shape agent w'.
Proof.
  intros Hst [Hnd _] (es & Hnone & Hsome). unfold shape, owners, job_trace in *.
  destruct Hst; simpl in *; forget_backlog; simpl in *; refold.
  all: try (exists es; split; assumption).
  all: rewrite ?filter_app, ?filter_cons, ?filter_nil; simpl.
  all: rewrite ?app_nil_r.
  all: try (exists es; split; assumption).
  1: { (* Submit *)
    rewrite H in Hnd. simpl in Hnd. apply NoDup_app in Hnd as (_ & Hnd & _).
    exists es. split.
    - intros Hn. apply Hnone. rewrite fmap_app in Hn. set_solver.
    - intros p [Hp|Hp%list_elem_of_singleton]%elem_of_app; [by apply Hsome|].
      injection Hp as <- ->. simpl. rewrite app_nil_r. apply Hnone.
      intros Hin. apply (Hnd _ Hin). set_solver. }
  all: apply NoDup_app in Hnd as (Hnd & _ & _);
       rewrite H in Hnd; simpl in Hnd; apply NoDup_cons in Hnd as [Hfresh _];
       destruct (decide (agent0 = agent)) as [->|Hne];
       [ rewrite decide_bool_decide_true by done
       | rewrite decide_bool_decide_false by done; rewrite app_nil_r; exists es; split;
         [ intros Hn; apply Hnone; rewrite H; set_solver
         | intros p Hp; apply Hsome; rewrite H; set_solver ] ].
  1-4: exists es; split; [ intros Hn; exfalso; set_solver |];
       intros p [Hp|Hp]%elem_of_cons;
       [ injection Hp as ->;
         match goal with H : _ ≡ₚ Job _ ?q :: _ |- _ =>
           rewrite (Hsome q) by (rewrite H; left) end;
         simpl; rewrite <- app_assoc; reflexivity
       | exfalso; apply Hfresh; eapply job_elem_of_fmap, Hp ].
  exists (es ++ [e]). rewrite bind_app. simpl. split.
  - intros _. rewrite (Hsome (PcDelete e)) by (rewrite H; left).
    simpl. rewrite <- app_assoc. reflexivity.
  - intros p Hp. exfalso. apply Hfresh. refold. eapply job_elem_of_fmap, Hp.
Qed.

(** ** Submitted jobs finish *)

Lemma count_snoc f l ev :
  count f (l ++ [ev]) = (count f l + (if f ev then 1 else 0))%nat.
Proof.
  unfold count. rewrite filter_app, length_app, filter_cons, filter_nil.
  by destruct (f ev).
Qed.

Lemma jobs_of_cons agent j js :
  jobs_of agent (j :: js) =
  ((if bool_decide (jagent j = agent) then 1 else 0) + jobs_of agent js)%nat.
Proof.
  unfold jobs_of. rewrite filter_cons.
  case_bool_decide; destruct (decide _); done.
Qed.

Lemma jobs_of_perm agent js js' : js ≡ₚ js' → jobs_of agent js = jobs_of agent js'.
Proof. intros H. unfold jobs_of. by rewrite H. Qed.

Lemma jobs_of_snoc agent j js :
  jobs_of agent (js ++ [j]) =
  (jobs_of agent js + (if bool_decide (jagent j = agent) then 1 else 0))%nat.
Proof.
  rewrite (jobs_of_perm agent (js ++ [j]) (j :: js)).
  - rewrite jobs_of_cons. lia.
  - by rewrite Permutation_app_comm.
Qed.

Lemma balance_stepped agent w w' : stepped w w' → balance agent w → balance agent w'.
Proof.
  intros Hst Hb. unfold balance in *.
  destruct Hst; simpl in *; forget_backlog; simpl in *;
    rewrite ?count_snoc, ?jobs_of_snoc, ?jobs_of_cons; simpl;
    try (match goal with H : _ ≡ₚ _ |- _ =>
           rewrite (jobs_of_perm _ _ _ H), jobs_of_cons in Hb; simpl in Hb end);
    lia.
Qed.

(** ** Shutdown *)

Lemma addBacklog_stopped agent earliest s :
  stopped s = true → addBacklog agent earliest s = s.
Proof. intros H. unfold addBacklog. by rewrite H. Qed.

Lemma removeBacklog_stopped agent s :
  stopped s = true →
  removeBacklog agent s = with_deferredUpdates (delete agent (deferredUpdates s)) s.
Proof. intros H. unfold removeBacklog. simpl. by rewrite H. Qed.

Ltac split_elem :=
  repeat match goal with
    | |- _ ∧ _ => split
    | |- _ → _ => intros ?
    | H : _ ∈ _ ++ _ |- _ => apply elem_of_app in H as [H|H]
    | H : _ ∈ [] |- _ => by apply not_elem_of_nil in H
    | H : _ ∈ _ :: _ |- _ => apply elem_of_cons in H as [H|H]; try discriminate H
    end.

Lemma shutdown_ok_stepped w w' : stepped w w' → shutdown_ok w → shutdown_ok w'.
Proof.
  intros Hst (Hstop & Hsw & Hwait & Hpool & Hdone). unfold shutdown_ok, Stopped in *.
  destruct Hst; simpl in *;
    try (match goal with H : _ ≡ₚ _ |- _ =>
           rewrite H in Hsw, Hwait; clear H end);
    try (match goal with H : tasks (pool ?s) ≡ₚ _ |- _ =>
           assert (tasks (pool s) ≠ [])
             by (let Heq := fresh in
                 intros Heq; rewrite Heq in H; by apply Permutation_nil_cons in H);
           clear H end).
  9, 17: destruct (stopped s) eqn:Hs;
    [ rewrite ?addBacklog_stopped, ?removeBacklog_stopped by done
    | forget_backlog ]; simpl in *.
  all: try (destruct c; simpl in * ).
  all: split_elem.
  all: try done.
  all: try (by apply Hstop).
  all: try (apply Hsw; by repeat constructor).
  all: try (apply Hwait; by repeat constructor).
  all: try (by apply Hpool).
  all: try (by apply Hdone).
  all: try congruence.
  all: try (match goal with
            | Hd : EvDestroyed ∈ ?tr → _, H : EvDestroyed ∈ ?tr |- _ =>
                destruct (Hd H) as [? ?]; unfold Stopped in *; congruence
            end).
  all: try (match goal with
            | Hd : stopped ?s = true → _, H : stopped ?s = true |- _ =>
                destruct (Hd H) as [Hd1 Hd2]; rewrite ?Hd1;
                solve [ apply delete_empty | eauto ]
            end).
  all: try (rewrite Hs; first [ apply Hsw; by repeat constructor | by apply Hpool ]).
  - destruct Hstop as [-> _]; [done|]. apply delete_empty.
  - match goal with H : Some _ = Some _ |- _ => by injection H as <- end.
Qed.

Lemma quiet_snoc l ev :
  quiet l → (EvDestroyed ∈ l → ∀ agent, ev ≠ EvSubmit agent) → quiet (l ++ [ev]).
Proof.
  intros Hq Hev pre post Heq agent Hin.
  destruct post as [|x post _] using rev_ind; [by apply not_elem_of_nil in Hin|].
  change (pre ++ EvDestroyed :: post ++ [x]) with (pre ++ (EvDestroyed :: post) ++ [x]) in Heq.
  rewrite app_assoc in Heq. apply app_inj_tail in Heq as [-> ->].
  apply elem_of_app in Hin as [Hin|Hin%list_elem_of_singleton].
  - by eapply Hq.
  - eapply Hev; [|symmetry; exact Hin]. apply elem_of_app. right. left.
Qed.

Lemma quiet_stepped w w' :
  stepped w w' → shutdown_ok w → quiet (trace (sto w)) → quiet (trace (sto w')).
Proof.
  intros Hst (_ & _ & _ & _ & Hdone) Hq.
  destruct Hst; simpl in *; forget_backlog; simpl in *; try assumption.
  all: apply quiet_snoc; [assumption|]; intros Hd a; try discriminate.
  destruct (Hdone Hd) as [? _]. congruence.
Qed.

(** ** No backlog without a minimum update interval *)

Lemma removeBacklog_deferred agent s :
  deferredUpdates (removeBacklog agent s) = delete agent (deferredUpdates s).
Proof.
  unfold removeBacklog; simpl. destruct (stopped s); [done|].
  match goal with |- context [refreshTimer ?x] =>
    by destruct (refreshTimer_shape x) as (T & ? & ->) end.
Qed.

Lemma unthrottled_stepped w w' : stepped w w' → unthrottled w → unthrottled w'.
Proof.
  intros Hst Hun. unfold unthrottled in *.
  destruct Hst; simpl in *;
    try (match goal with H : _ ≡ₚ _ |- _ => setoid_rewrite H in Hun; clear H end).
  9: { destruct (addBacklog_shape agent earliest s) as (D & T & ? & ->). simpl.
       intros HI. destruct (Hun HI) as [_ Hf]. exfalso. eapply Hf. left. }
  16: { rewrite removeBacklog_deferred.
        destruct (removeBacklog_shape agent s) as (D & T & ? & ->). simpl.
        intros HI. destruct (Hun HI) as [-> Hf]. split; [apply delete_empty|done]. }
  all: intros HI; try lia; destruct (Hun HI) as [HD Hf]; split; try done.
  all: try (destruct c; simpl).
  all: intros a t0 e0 Hin; apply (Hf a t0 e0).
  all: split_elem; try done; by repeat constructor.
Qed.

(** ** The backlog timer *)

Lemma timer_ok_refreshTimer s fs : timer_ok range (World (refreshTimer s) fs).
Proof.
  unfold timer_ok, refreshTimer; simpl.
  destruct (bool_decide (size (deferredUpdates s) = 0%nat) || stopped s) eqn:E; simpl.
  - intros t Ht Ha. destruct (deferredUpdatesTimer s); simpl in Ht; [|done].
    by injection Ht as <-.
  - apply orb_false_elim in E as [E1%bool_decide_eq_false ->].
    intros t Ht _. injection Ht as <-. simpl. split; [done|]. split.
    + intros HD. apply E1. rewrite HD. apply map_size_empty.
    + exists (draws s). by destruct (scan _).
Qed.

Lemma timer_ok_same w w' :
  deferredUpdatesTimer (sto w') = deferredUpdatesTimer (sto w) →
  stopped (sto w') = stopped (sto w) →
  deferredUpdates (sto w') = deferredUpdates (sto w) →
  timer_ok range w → timer_ok range w'.
Proof. unfold timer_ok. intros -> -> ->. done. Qed.

Lemma timer_ok_stepped w w' :
  stepped w w' → shutdown_ok w → timer_ok range w → timer_ok range w'.
Proof.
  intros Hst (Hstop & _) Hok.
  destruct Hst;
    try (by eapply timer_ok_same; [| | |exact Hok]).
  - unfold addBacklog.
    destruct (stopped s) eqn:Hs; [by eapply timer_ok_same; [| | |exact Hok]|].
    destruct (deferredUpdates s !! agent) as [t|]; [destruct (earliest <? t)|].
    2: by eapply timer_ok_same; [| | |exact Hok].
    all: apply timer_ok_refreshTimer.
  - intros t Ht _. discriminate Ht.
  - unfold removeBacklog; simpl. destruct (stopped s) eqn:Hs.
    + intros t Ht Ha. simpl in *. destruct (Hstop Hs) as [_ Hoff].
      rewrite (Hoff t Ht) in Ha. discriminate.
    + eapply timer_ok_same;
        [| | |apply (timer_ok_refreshTimer
                       (with_deferredUpdates (delete agent (deferredUpdates s)) s) fs)];
        reflexivity.
  - intros t' Ht' Ha. simpl in *. by injection Ht' as <-.
Qed.

(** ** All of it, for every reachable world *)

Lemma invariant_init size ttl workers interval :
  invariant (World (newStore size ttl workers interval) []).
Proof.
  unfold invariant, owners_ok, marks_owned, shape, balance, shutdown_ok, quiet,
    unthrottled, timer_ok, owners; simpl.
  repeat match goal with |- _ ∧ _ => split end; try done.
  - apply NoDup_nil_2.
  - intros k Hk. by apply not_elem_of_nil in Hk.
  - intros agent. exists []. split; [done|].
    intros p Hp. by apply not_elem_of_nil in Hp.
  - intros Hin. by apply not_elem_of_nil in Hin.
  - intros Hin. by apply not_elem_of_nil in Hin.
  - intros Hin. by apply not_elem_of_nil in Hin.
  - intros pre post Heq. by destruct pre.
  - intros _. split; [done|]. intros a t e Hin. by apply not_elem_of_nil in Hin.
Qed.

Lemma invariant_stepped w w' : stepped w w' → invariant w → invariant w'.
Proof.
  intros Hst (Ho & Hm & Hs & Hb & Hd & Hq & Hu & Ht).
  split; [by eapply owners_ok_stepped|].
  split; [by eapply marks_owned_stepped|].
  split; [intros agent; by eapply shape_stepped|].
  split; [intros agent; by eapply balance_stepped|].
  split; [by eapply shutdown_ok_stepped|].
  split; [by eapply quiet_stepped|].
  split; [by eapply unthrottled_stepped|].
  by eapply timer_ok_stepped.
Qed.

Lemma invariant_reachable w : reachable w → invariant w.
Proof.
  apply reachable_invariant; [apply invariant_init|apply invariant_stepped].
Qed.

(** ** When callbacks may panic *)

Lemma xstep_xstepped l w w' : xstep l w = Some w' → xstepped w w'.
Proof.
  destruct l as [l|i|i]; simpl; intros H.
  - apply xs_step. by eapply step_stepped.
  - destruct w as [s fs]. simpl in *.
    destruct (tasks (pool s) !! i) as [j|] eqn:Hj; [|discriminate].
    destruct (calls_back (jpc j)) eqn:Hc; [|discriminate].
    injection H as <-. apply xs_panic; [|done]. by apply delete_Permutation.
  - destruct w as [s fs]. simpl in *.
    destruct (fs !! i) as [f|] eqn:Hf; [|discriminate].
    destruct f; try discriminate. injection H as <-.
    eapply xs_panic_call. by apply delete_Permutation.
Qed.

Lemma xrun_invariant (P : world → Prop) :
  (∀ w w', xstepped w w' → P w → P w') →
  ∀ ls w w', xrun ls w = Some w' → P w → P w'.
Proof.
  intros Hstep ls. induction ls as [|l ls IH]; simpl; intros w w' H Hw.
  - by injection H as <-.
  - destruct (xstep l w) as [w1|] eqn:Hl; [|discriminate].
    eapply IH; [exact H|]. eapply Hstep; [|exact Hw]. by eapply xstep_xstepped.
Qed.

Lemma xreachable_invariant (P : world → Prop) :
  (∀ size ttl workers interval, P (World (newStore size ttl workers interval) [])) →
  (∀ w w', xstepped w w' → P w → P w') →
  ∀ w, xreachable w → P w.
Proof.
  intros Hinit Hstep w (size & ttl & workers & interval & ls & Hrun).
  eapply xrun_invariant; [exact Hstep|exact Hrun|apply Hinit].
Qed.

Lemma run_xrun ls w : xrun (XStep <$> ls) w = run ls w.
Proof.
  revert w. induction ls as [|l ls IH]; intros w; [done|].
  rewrite fmap_cons. simpl. destruct (step l w); [apply IH|done].
Qed.

(** The worlds reached while the callbacks return are among those reached
    when they may panic. *)
Lemma reachable_xreachable w : reachable w → xreachable w.
Proof.
  intros (size & ttl & workers & interval & ls & Hrun).
  exists size, ttl, workers, interval, (XStep <$> ls). by rewrite run_xrun.
Qed.

Lemma owners_ok_xstepped w w' : xstepped w w' → owners_ok w → owners_ok w'.
Proof.
  intros [w1 w2 Hst|s fs js j Hp Hc|s fs rest agent e Hp]; [by apply owners_ok_stepped| |].
  - intros [Hnd Hin]. unfold owners_ok, owners in *. simpl in *.
    rewrite Hp, fmap_cons in Hnd. setoid_rewrite Hp in Hin.
    setoid_rewrite fmap_cons in Hin. simpl in *.
    apply NoDup_cons in Hnd as [Hfresh Hnd]. split; [done|].
    intros k Hk. apply Hin. by right.
  - intros [Hnd Hin]. unfold owners_ok, owners in *. simpl in *.
    rewrite Hp in Hnd. setoid_rewrite Hp in Hin. done.
Qed.

Lemma mark_owned_stepped k w w' : stepped w w' → mark_owned k w → mark_owned k w'.
Proof.
  intros Hst Hin. unfold mark_owned, owners, Stopped in *.
  destruct Hst; simpl in *; forget_backlog; simpl in *;
    try (match goal with H : _ ≡ₚ _ |- _ => setoid_rewrite H in Hin; clear H end);
    simpl in *; refold.
  all: try assumption.
  all: try (destruct c; assumption).
  all: rewrite ?fmap_app, ?fmap_cons in *; simpl in *; refold.
  all: unfold Stopped in *; try congruence.
  all: set_solver.
Qed.

Lemma mark_owned_xstepped k w w' : xstepped w w' → mark_owned k w → mark_owned k w'.
Proof.
  intros [w1 w2 Hst|s fs js j Hp Hc|s fs rest agent e Hp]; [by apply mark_owned_stepped| |].
  - unfold mark_owned, owners, Stopped. simpl. intros Hin Hs Hk Hno.
    rewrite not_elem_of_app, list_elem_of_singleton in Hno. destruct Hno as [Hno Hne].
    specialize (Hin Hs Hk Hno). rewrite Hp, fmap_cons in Hin. simpl in Hin.
    set_solver.
  - unfold mark_owned, owners. simpl. intros Hin Hs Hk Hno.
    specialize (Hin Hs Hk Hno). by rewrite Hp in Hin.
Qed.

Lemma xbalance_xstepped agent w w' : xstepped w w' → xbalance agent w → xbalance agent w'.
Proof.
  intros [w1 w2 Hst|s fs js j Hp Hc|s fs rest a e Hp] Hb; unfold xbalance in *; [| |done].
  - destruct Hst; simpl in *; forget_backlog; simpl in *;
      rewrite ?count_snoc, ?jobs_of_snoc, ?jobs_of_cons; simpl;
      try (match goal with H : _ ≡ₚ _ |- _ =>
             rewrite (jobs_of_perm _ _ _ H), jobs_of_cons in Hb; simpl in Hb end);
      lia.
  - simpl in *. rewrite !count_snoc. simpl.
    rewrite (jobs_of_perm _ _ _ Hp), jobs_of_cons in Hb.
    destruct (bool_decide (jagent j = agent)); lia.
Qed.

Lemma xinvariant_xreachable w : xreachable w → xinvariant w.
Proof.
  apply xreachable_invariant.
  - intros size ttl workers interval. unfold xinvariant, owners_ok, mark_owned, xbalance,
      owners; simpl.
    split; [split; [apply NoDup_nil_2|]; intros k Hk; by apply not_elem_of_nil in Hk|].
    split; [|done]. intros k _ Hk. by apply not_elem_of_empty in Hk.
  - intros w0 w' Hst (Ho & Hm & Hb). split; [by eapply owners_ok_xstepped|].
    split; [intros k; by eapply mark_owned_xstepped|].
    intros agent. by eapply xbalance_xstepped.
Qed.

(** A mark without an owner is never removed, and its key never gets an
    owner again. *)
Lemma orphan_xstepped k w w' : xstepped w w' → orphan k w → orphan k w'.
Proof.
  intros [w1 w2 Hst|s fs js j Hp Hc|s fs rest a e Hp]; unfold orphan, owners.
  3: { simpl. by rewrite Hp. }
  - destruct Hst; simpl in *; forget_backlog; simpl in *;
      try (match goal with H : _ ≡ₚ _ |- _ => rewrite ?H; clear H end);
      simpl in *; refold.
    all: try done.
    all: try (destruct c; done).
    all: rewrite ?fmap_app, ?fmap_cons in *; simpl in *; refold.
    all: set_solver.
  - simpl. rewrite Hp, fmap_cons. simpl. set_solver.
Qed.

Lemma orphan_xrun k ls w w' : xrun ls w = Some w' → orphan k w → orphan k w'.
Proof. apply xrun_invariant. intros w0 w1. apply orphan_xstepped. Qed.

(** Only the last statement of a job removes a mark. *)
Lemma mark_removed_by_release k w w' :
  xstepped w w' →
  k ∈ inflight (sto w) → k ∉ inflight (sto w') →
  trace (sto w') = trace (sto w) ++ [EvRelease k].
Proof.
  intros [w1 w2 Hst|s fs js j Hp Hc|s fs rest a e Hp].
  2, 3: simpl; intros Hin Hout; done.
  destruct Hst; simpl in *; forget_backlog; simpl in *; intros Hin Hout;
    try (by destruct (Hout Hin)).
  - set_solver.
  - destruct (decide (k = agent)) as [->|Hne]; [done|]. set_solver.
Qed.

(** ** The calls, run without interruption *)

Lemma enqueue_trace agent s :
  trace (enqueue agent s) = trace s ∨ trace (enqueue agent s) = trace s ++ [EvSubmit agent].
Proof.
  unfold enqueue, LoadOrStore. case_bool_decide; simpl; [by left|].
  unfold Stopped; simpl. destruct (poolStopped (pool s)); simpl; [by left|by right].
Qed.

Lemma addBacklog_trace agent earliest s : trace (addBacklog agent earliest s) = trace s.
Proof. by destruct (addBacklog_shape agent earliest s) as (D & T & ? & ->). Qed.

Lemma since_le now t : 0 ≤ now - t → since now t ≤ now - t.
Proof. unfold since, clamp64, minDuration, maxDuration. repeat case_match; lia. Qed.

(** A [lookup] is its frame run to the end: the small steps of the
    scheduler compose to the function. *)
Lemma run_frame_lookup now agent index s :
  run_frame 3 now (FLookup agent index) s = lookup now agent index s.
Proof.
  unfold lookup, enqueue. simpl. unfold Get.
  destruct (items (cache s) !! agent) as [[entry|]|]; simpl; [|done|].
  - destruct (rows entry !! index); simpl; [done|].
    destruct (0 <? minUpdateInterval s); simpl; [|done].
    destruct (minUpdateInterval s <? since now (created entry)); simpl; [|done].
    destruct (LoadOrStore agent s) as [s1 []]; simpl; [done|].
    by destruct (Stopped s1).
  - destruct (LoadOrStore agent s) as [s1 []]; simpl; [done|].
    by destruct (Stopped s1).
Qed.

(** A job is its five statements run in a row. *)
Lemma run_job_steps upd upd2 upd3 upd4 upd5 agent s :
  let '(s1, j1) := job_step upd (Job agent PcUpdate) s in
  let '(s2, j2) := job_step upd2 (default (Job agent PcUpdate) j1) s1 in
  let '(s3, j3) := job_step upd3 (default (Job agent PcUpdate) j2) s2 in
  let '(s4, j4) := job_step upd4 (default (Job agent PcUpdate) j3) s3 in
  let '(s5, j5) := job_step upd5 (default (Job agent PcUpdate) j4) s4 in
  s5 = run_job upd agent s ∧ j5 = None.
Proof. done. Qed.

(** The branches of [lookup] on a partial hit: it calls the notifier itself,
    with the cached entry, when the minimum update interval is disabled or
    has not elapsed; when it is enabled and has elapsed, [lookup] calls
    [enqueue] and returns at once, without calling the notifier. *)
Lemma lookup_partial_hit now agent index s entry :
  Get agent s = Some (Some entry) →
  rows entry !! index = None →
  (¬ (0 < minUpdateInterval s ∧ minUpdateInterval s < since now (created entry)) →
   ∃ s', lookup now agent index s = Some s'
         ∧ trace s' = trace s ++ [EvNotify Caller agent (Some entry)])
  ∧ (0 < minUpdateInterval s →
     minUpdateInterval s < since now (created entry) →
     lookup now agent index s = Some (enqueue agent s)
     ∧ ∀ o a e, EvNotify o a e ∈ trace (enqueue agent s) → EvNotify o a e ∈ trace s).
Proof.
  intros Hget Hrow. unfold lookup. rewrite Hget, Hrow. split.
  - intros Hnot.
    destruct (0 <? minUpdateInterval s) eqn:HI.
    + destruct (minUpdateInterval s <? since now (created entry)) eqn:Hel; [lia|].
      eexists. split; [reflexivity|]. simpl. by rewrite addBacklog_trace.
    + eexists. split; reflexivity.
  - intros HI Hel.
    destruct (0 <? minUpdateInterval s) eqn:HI'; [|lia].
    destruct (minUpdateInterval s <? since now (created entry)) eqn:Hel'; [|lia].
    split; [reflexivity|]. intros o a e Hin.
    destruct (enqueue_trace agent s) as [Heq|Heq]; rewrite Heq in Hin; [done|].
    apply elem_of_app in Hin as [Hin|Hin%list_elem_of_singleton]; [done|discriminate].
Qed.

Lemma addBacklog_deferred agent earliest s :
  stopped s = false →
  deferredUpdates (addBacklog agent earliest s)
  = match deferredUpdates s !! agent with
    | Some t => if earliest <? t then <[agent := earliest]> (deferredUpdates s)
                else deferredUpdates s
    | None => <[agent := earliest]> (deferredUpdates s)
    end.
Proof.
  intros Hs. unfold addBacklog. rewrite Hs.
  destruct (deferredUpdates s !! agent) as [t|]; [destruct (earliest <? t); [|done]|].
  all: match goal with |- context [refreshTimer ?x] =>
         by destruct (refreshTimer_shape x) as (T1 & ? & ->) end.
Qed.

Lemma lookup_throttled now agent index s entry :
  Get agent s = Some (Some entry) →
  rows entry !! index = None →
  0 < minUpdateInterval s →
  0 ≤ now - created entry ≤ minUpdateInterval s →
  lookup now agent index s
  = Some (notify Caller agent (Some entry)
            (addBacklog agent (created entry + minUpdateInterval s) s)).
Proof.
  intros Hget Hrow HI Hnow. unfold lookup. rewrite Hget, Hrow.
  destruct (0 <? minUpdateInterval s) eqn:E; [|lia].
  destruct (minUpdateInterval s <? since now (created entry)) eqn:E'; [|done].
  pose proof (since_le now (created entry)). lia.
Qed.

(** C6 (amended). With a minimum update interval [I] and an entry created
    at [T], a partial-hit lookup at [T+δ], [0 < δ < I], on a store that has
    not been destroyed and whose backlog has no entry for the key (or one
    that is not earlier than [T+I]), leaves the key with the deadline [T+I];
    a second one at [T+δ'], [δ < δ' < I], leaves the backlog as it is. An [addBacklog]
    with a time that is not earlier than the one recorded changes nothing,
    one with an earlier time overwrites it. *)
Theorem throttle_deadline I T δ δ' agent index s entry :
  stopped s = false →
  minUpdateInterval s = I →
  Get agent s = Some (Some entry) →
  created entry = T →
  rows entry !! index = None →
  (∀ d, deferredUpdates s !! agent = Some d → T + I ≤ d) →
  0 < δ < I →
  δ < δ' < I →
  (∃ s1 s2,
     lookup (T + δ) agent index s = Some s1
     ∧ deferredUpdates s1 = <[agent := T + I]> (deferredUpdates s)
     ∧ lookup (T + δ') agent index s1 = Some s2
     ∧ deferredUpdates s2 = deferredUpdates s1
     ∧ deferredUpdates s2 !! agent = Some (T + I))
  ∧ (∀ s0 t earliest,
       deferredUpdates s0 !! agent = Some t → t ≤ earliest →
       addBacklog agent earliest s0 = s0)
  ∧ (∀ s0 t earliest,
       stopped s0 = false → deferredUpdates s0 !! agent = Some t → earliest < t →
       deferredUpdates (addBacklog agent earliest s0)
       = <[agent := earliest]> (deferredUpdates s0)).
Proof.
  intros Hrun <- Hget <- Hrow Hlater Hd Hd'.
  set (I := minUpdateInterval s) in *. set (T := created entry) in *.
  split; [|split].
  - set (s1 := notify Caller agent (Some entry) (addBacklog agent (T + I) s)).
    assert (HD1 : deferredUpdates s1 = <[agent := T + I]> (deferredUpdates s)).
    { unfold s1. simpl. rewrite addBacklog_deferred by done.
      destruct (deferredUpdates s !! agent) as [d|] eqn:Hdl; [|done].
      destruct (T + I <? d) eqn:E; [done|].
      pose proof (Hlater d eq_refl). symmetry. apply insert_id.
      rewrite Hdl. f_equal. lia. }
    assert (Hsame : ∀ x, Get agent (notify Caller agent (Some entry) (addBacklog agent x s))
                         = Get agent s
                         ∧ minUpdateInterval (notify Caller agent (Some entry) (addBacklog agent x s))
                           = minUpdateInterval s
                         ∧ stopped (notify Caller agent (Some entry) (addBacklog agent x s))
                           = stopped s).
    { intros x. unfold Get. by destruct (addBacklog_shape agent x s) as (D & T1 & ? & ->). }
    destruct (Hsame (T + I)) as (Hget1 & HI1 & Hrun1). fold s1 in Hget1, HI1, Hrun1.
    exists s1, (notify Caller agent (Some entry) (addBacklog agent (T + I) s1)).
    split; [apply lookup_throttled; try done; fold I T; lia|].
    split; [exact HD1|].
    split.
    { rewrite lookup_throttled with (entry := entry); rewrite ?Hget1, ?HI1; try done;
        fold I T; lia. }
    assert (Hnoop : addBacklog agent (T + I) s1 = s1).
    { unfold addBacklog. rewrite Hrun1, Hrun, HD1, lookup_insert_eq.
      by rewrite Z.ltb_irrefl. }
    rewrite Hnoop. simpl. split; [reflexivity|].
    change (deferredUpdates s1 !! agent = Some (T + I)).
    rewrite HD1. apply lookup_insert_eq.
  - intros s0 t earliest Ht Hle. unfold addBacklog. rewrite Ht.
    destruct (stopped s0); [done|]. destruct (earliest <? t) eqn:E; [lia|done].
  - intros s0 t earliest Hs0 Ht Hlt. rewrite addBacklog_deferred, Ht by done.
    destruct (earliest <? t) eqn:E; [done|lia].
Qed.

Lemma lookup_fails now agent index s :
  lookup now agent index s = None ↔ Get agent s = Some None.
Proof.
  unfold lookup. destruct (Get agent s) as [[entry|]|]; [|done..].
  split; [|done]. destruct (rows entry !! index); [done|].
  destruct (0 <? minUpdateInterval s); [|done].
  by destruct (minUpdateInterval s <? since now (created entry)).
Qed.

(** C9 (amended). [newStore] rejects nothing: for every size, TTL, number
    of workers and minimum update interval, invalid ones included, it
    returns a running store, on which a lookup of any key submits its job.
    Nothing is rejected at call time either: in every world reached from
    that store, whatever the four values are, a [lookup] fails only on a
    cached nil entry, and [purge] and [destroy] go ahead. *)
Theorem newStore_accepts size ttl workers interval :
  stopped (newStore size ttl workers interval) = false
  ∧ Stopped (newStore size ttl workers interval) = false
  ∧ (∀ now agent index,
       lookup now agent index (newStore size ttl workers interval)
       = Some (Submit agent (with_inflight ({[agent]} ∪ ∅)
                                           (newStore size ttl workers interval))))
  ∧ (∀ ls w,
       run ls (World (newStore size ttl workers interval) []) = Some w →
       ∀ now agent index,
         (lookup now agent index (sto w) = None ↔ Get agent (sto w) = Some None)
         ∧ frame_step now FPurge (sto w) = Some (purge (sto w), None)
         ∧ frame_step now FDestroy (sto w) = Some (destroy_locked (sto w), Some FStopAndWait)).
Proof.
  split; [done|]. split; [done|]. split; [done|].
  intros ls w Hrun now agent index. split; [apply lookup_fails|done].
Qed.

(** What a worker hands to the notifier is a value [update] returned for
    the key and the job put into the cache. *)
Lemma worker_notifies_update agent e w :
  shape agent w →
  EvNotify Worker agent e ∈ trace (sto w) →
  EvUpdate agent e ∈ trace (sto w) ∧ EvCacheAdd agent e ∈ trace (sto w).
Proof.
  intros (es & Hnone & Hsome) Hin.
  assert (Hjt : EvNotify Worker agent e ∈ job_trace agent (sto w)).
  { apply list_elem_of_filter. split; [|done]. simpl. by rewrite bool_decide_true. }
  assert (Hback : ∀ ev, ev ∈ job_trace agent (sto w) → ev ∈ trace (sto w)).
  { intros ev Hev. by apply list_elem_of_filter in Hev as [_ ?]. }
  assert (Hcyc : ∀ l, job_trace agent (sto w) = (es ≫= cycle agent) ++ l →
                      EvNotify Worker agent e ∈ es ≫= cycle agent →
                      EvUpdate agent e ∈ trace (sto w) ∧ EvCacheAdd agent e ∈ trace (sto w)).
  { intros l Heq (e' & He' & Hes)%list_elem_of_bind.
    assert (e' = e) as ->.
    { unfold cycle in He'. repeat (apply elem_of_cons in He' as [He'|He']; try discriminate He').
      - by injection He'.
      - by apply not_elem_of_nil in He'. }
    split; apply Hback; rewrite Heq; apply elem_of_app; left;
      apply list_elem_of_bind; exists e; (split; [|done]); unfold cycle.
    - left.
    - right. left. }
  destruct (decide (agent ∈ jagent <$> tasks (pool (sto w)))) as [Hj|Hn].
  - apply list_elem_of_fmap in Hj as ([a p] & -> & Hj). simpl in *.
    pose proof (Hsome p Hj) as Heq. rewrite Heq in Hjt.
    apply elem_of_app in Hjt as [Hjt|Hjt]; [by eapply Hcyc|].
    assert (p = PcDelete e) as ->.
    { destruct p; simpl in Hjt;
        repeat (apply elem_of_cons in Hjt as [Hjt|Hjt]; try discriminate Hjt);
        try (by apply not_elem_of_nil in Hjt).
      by injection Hjt as ->. }
    split; apply Hback; rewrite Heq; apply elem_of_app; right; simpl.
    + left.
    + right. left.
  - pose proof (Hnone Hn) as Heq. rewrite Heq in Hjt.
    apply (Hcyc []); [by rewrite app_nil_r|done].
Qed.

(** C10. The job puts what [update] returned into the cache, whatever it is
    (a nil entry too) and whatever the cache held for the key, and hands the
    same value to the notifier; no statement of the job is skipped. In every
    reachable world, what a worker handed to the notifier for a key is a
    value that [update] returned for it and that the job put into the
    cache. *)
Theorem job_installs_update upd agent s :
  Get agent (run_job upd agent s) = Some upd
  ∧ trace (run_job upd agent s) = trace s ++ cycle agent upd
  ∧ (∀ e, job_step upd (Job agent (PcCacheAdd e)) s
          = (log (EvCacheAdd agent e) (Add agent e s), Some (Job agent (PcRemoveBacklog e)))
          ∧ Get agent (Add agent e s) = Some e)
  ∧ (∀ e, job_step upd (Job agent (PcNotify e)) s
          = (notify Worker agent e s, Some (Job agent (PcDelete e))))
  ∧ (∀ w e, reachable w →
            EvNotify Worker agent e ∈ trace (sto w) →
            EvUpdate agent e ∈ trace (sto w) ∧ EvCacheAdd agent e ∈ trace (sto w)).
Proof.
  split; [|split; [|split; [|split]]].
  - unfold run_job, Get. cbv zeta. forget_backlog. simpl. apply lookup_insert_eq.
  - unfold run_job. cbv zeta. forget_backlog. simpl.
    by rewrite <- !app_assoc.
  - intros e. split; [reflexivity|]. unfold Get, Add; simpl. apply lookup_insert_eq.
  - done.
  - intros w e Hr. apply worker_notifies_update.
    by destruct (invariant_reachable w Hr) as (_ & _ & Hsh & _).
Qed.

(** ** Counting resolver calls *)

Lemma count_app f l1 l2 : count f (l1 ++ l2) = (count f l1 + count f l2)%nat.
Proof. unfold count. by rewrite filter_app, length_app. Qed.

Lemma count_job_trace f agent s :
  (∀ ev, f ev = true → job_event agent ev = true) →
  count f (job_trace agent s) = count f (trace s).
Proof.
  intros Hf. unfold count, job_trace. rewrite list_filter_filter.
  f_equal. apply list_filter_iff. intros ev. split; [by intros [? _]|].
  intros H. split; [done|]. apply Is_true_true, Hf. by apply Is_true_true.
Qed.

Lemma is_update_job_event agent ev : is_update agent ev = true → job_event agent ev = true.
Proof. by destruct ev. Qed.

Lemma is_release_job_event agent ev : is_release agent ev = true → job_event agent ev = true.
Proof. by destruct ev. Qed.

Lemma count_update_cycles agent es :
  count (is_update agent) (es ≫= cycle agent) = length es.
Proof.
  induction es as [|e es IH]; [done|].
  change ((e :: es) ≫= cycle agent) with (cycle agent e ++ (es ≫= cycle agent)).
  rewrite count_app, IH. unfold count, cycle.
  rewrite !filter_cons, filter_nil. simpl.
  rewrite !decide_bool_decide_true by done. done.
Qed.

Lemma count_release_cycles agent es :
  count (is_release agent) (es ≫= cycle agent) = length es.
Proof.
  induction es as [|e es IH]; [done|].
  change ((e :: es) ≫= cycle agent) with (cycle agent e ++ (es ≫= cycle agent)).
  rewrite count_app, IH. unfold count, cycle.
  rewrite !filter_cons, filter_nil. simpl.
  rewrite !decide_bool_decide_true by done. done.
Qed.

Lemma count_update_done_part agent p :
  count (is_update agent) (done_part agent p) = if started p then 1%nat else 0%nat.
Proof.
  unfold count. destruct p; simpl; rewrite ?filter_cons, ?filter_nil; simpl;
    rewrite ?decide_bool_decide_true by done; done.
Qed.

Lemma count_release_done_part agent p :
  count (is_release agent) (done_part agent p) = 0%nat.
Proof.
  unfold count. destruct p; simpl; rewrite ?filter_cons, ?filter_nil; simpl; done.
Qed.

Lemma shape_counts agent w :
  shape agent w →
  (agent ∉ jagent <$> tasks (pool (sto w)) →
   count (is_update agent) (trace (sto w)) = count (is_release agent) (trace (sto w)))
  ∧ (∀ p, Job agent p ∈ tasks (pool (sto w)) →
          count (is_update agent) (trace (sto w))
          = (count (is_release agent) (trace (sto w)) + if started p then 1 else 0)%nat).
Proof.
  intros (es & Hnone & Hsome).
  rewrite <- (count_job_trace (is_update agent) agent) by apply is_update_job_event.
  rewrite <- (count_job_trace (is_release agent) agent) by apply is_release_job_event.
  split.
  - intros Hn. rewrite (Hnone Hn). by rewrite count_update_cycles, count_release_cycles.
  - intros p Hp. rewrite (Hsome p Hp), !count_app.
    by rewrite count_update_cycles, count_release_cycles,
         count_update_done_part, count_release_done_part, Nat.add_0_r.
Qed.

Lemma updates_bounded agent w :
  shape agent w →
  (count (is_update agent) (trace (sto w))
   ≤ count (is_release agent) (trace (sto w)) + 1)%nat.
Proof.
  intros Hs. destruct (shape_counts agent w Hs) as [Hnone Hsome].
  destruct (decide (agent ∈ jagent <$> tasks (pool (sto w)))) as [Hin|Hn].
  - apply list_elem_of_fmap in Hin as ([a p] & -> & Hin). simpl in *.
    rewrite (Hsome p Hin). destruct (started p); lia.
  - rewrite (Hnone Hn). lia.
Qed.

Lemma jobs_of_absent agent js : agent ∉ jagent <$> js → jobs_of agent js = 0%nat.
Proof.
  induction js as [|j js IH]; [done|].
  rewrite fmap_cons, not_elem_of_cons, jobs_of_cons. intros [Hne Hn].
  rewrite bool_decide_false by done. by rewrite IH.
Qed.

Lemma jobs_of_present agent p js : Job agent p ∈ js → (1 ≤ jobs_of agent js)%nat.
Proof.
  intros Hin. unfold jobs_of.
  assert (H : Job agent p ∈ filter (λ j, jagent j = agent) js)
    by (by apply list_elem_of_filter).
  destruct (filter _ js); [by apply not_elem_of_nil in H|simpl; lia].
Qed.

Lemma jobs_of_NoDup agent js :
  NoDup (jagent <$> js) → (jobs_of agent js ≤ 1)%nat.
Proof.
  induction js as [|j js IH]; [unfold jobs_of; simpl; lia|].
  rewrite fmap_cons, NoDup_cons, jobs_of_cons. intros [Hn Hnd].
  case_bool_decide as Hj; [|by apply IH].
  rewrite jobs_of_absent; [lia|]. by rewrite <- Hj.
Qed.

(** ** Runs *)

Lemma run_app ls1 ls2 w :
  run (ls1 ++ ls2) w = match run ls1 w with Some w1 => run ls2 w1 | None => None end.
Proof.
  revert w. induction ls1 as [|l ls1 IH]; intros w; simpl; [done|].
  destruct (step l w); [apply IH|done].
Qed.

Lemma reachable_run ls w w' : reachable w → run ls w = Some w' → reachable w'.
Proof.
  intros (size & ttl & workers & interval & ls0 & H0) H.
  exists size, ttl, workers, interval, (ls0 ++ ls). by rewrite run_app, H0.
Qed.

Lemma trace_stepped w w' :
  stepped w w' → ∃ evs, trace (sto w') = trace (sto w) ++ evs.
Proof.
  intros Hst. destruct Hst; simpl; forget_backlog; simpl;
    first [ by exists []; rewrite app_nil_r | by eexists [_] ].
Qed.

Lemma trace_run ls w w' :
  run ls w = Some w' → ∃ evs, trace (sto w') = trace (sto w) ++ evs.
Proof.
  revert w. induction ls as [|l ls IH]; simpl; intros w H.
  - injection H as <-. exists []. by rewrite app_nil_r.
  - destruct (step l w) as [w1|] eqn:Hl; [|done].
    destruct (trace_stepped w w1 (step_stepped _ _ _ Hl)) as [evs1 H1].
    destruct (IH _ H) as [evs2 H2].
    exists (evs1 ++ evs2). by rewrite H2, H1, app_assoc.
Qed.

(** A mark left on a stopped, drained pool stays. *)
Lemma orphan_forever agent ls w w' :
  Stopped (sto w) = true → tasks (pool (sto w)) = [] → agent ∈ inflight (sto w) →
  run ls w = Some w' →
  Stopped (sto w') = true ∧ tasks (pool (sto w')) = [] ∧ agent ∈ inflight (sto w').
Proof.
  intros Hs Ht Hin Hrun.
  eapply (run_invariant
            (λ w, Stopped (sto w) = true ∧ tasks (pool (sto w)) = [] ∧ agent ∈ inflight (sto w)));
    [|exact Hrun|done].
  clear. intros w w' Hst (Hs & Ht & Hin). unfold Stopped in *.
  destruct Hst; simpl in *; forget_backlog; unfold Stopped in *; simpl in *;
    try (match goal with H : tasks (pool ?s) ≡ₚ _ |- _ =>
           rewrite Ht in H; by apply Permutation_nil_cons in H end);
    try congruence; try done.
  split; [done|]. split; [done|]. set_solver.
Qed.

(** On a stopped pool without jobs the resolver is never called again. *)
Lemma drained_no_update agent ls w w' :
  Stopped (sto w) = true → tasks (pool (sto w)) = [] →
  run ls w = Some w' →
  tasks (pool (sto w')) = []
  ∧ count (is_update agent) (trace (sto w')) = count (is_update agent) (trace (sto w)).
Proof.
  intros Hs Ht Hrun.
  cut (Stopped (sto w') = true ∧ tasks (pool (sto w')) = []
       ∧ count (is_update agent) (trace (sto w')) = count (is_update agent) (trace (sto w))).
  { by intros (_ & ? & ?). }
  eapply (run_invariant
            (λ w0, Stopped (sto w0) = true ∧ tasks (pool (sto w0)) = []
                   ∧ count (is_update agent) (trace (sto w0))
                     = count (is_update agent) (trace (sto w))));
    [|exact Hrun|done].
  clear. intros w0 w1 Hst (Hs & Ht & Hc). unfold Stopped in *.
  destruct Hst; simpl in *; forget_backlog; unfold Stopped in *; simpl in *;
    try (match goal with H : tasks (pool ?s) ≡ₚ _ |- _ =>
           rewrite Ht in H; by apply Permutation_nil_cons in H end);
    rewrite ?count_snoc; simpl; rewrite ?Nat.add_0_r;
    try congruence; try done.
Qed.

Lemma lookups_inflight n now agent index s :
  Get agent s = None → agent ∈ inflight s → lookups n now agent index s = Some s.
Proof.
  intros Hget Hin. induction n as [|n IH]; [done|]. simpl.
  unfold lookup, enqueue, LoadOrStore. by rewrite Hget, bool_decide_true.
Qed.

(** ** The pool drains

    A job of the pool is never blocked: whatever the store is doing, the
    jobs can run to their last statement one after the other, after which a
    waiting [destroy] returns. *)

Lemma work_head upd j js s fs :
  tasks (pool s) = j :: js →
  step (LWork 0 upd) (World s fs)
  = Some (World (with_tasks (option_list (job_step upd j s).2 ++ js) (job_step upd j s).1) fs).
Proof.
  intros Ht. simpl. rewrite Ht. simpl.
  pose proof (job_step_tasks upd j s) as Hsame.
  destruct (job_step upd j s) as [s1 j1]. simpl in *. by rewrite Hsame, Ht.
Qed.

Lemma job_step_next upd j s :
  match (job_step upd j s).2 with
  | Some j' => S (remaining (jpc j')) = remaining (jpc j)
  | None => remaining (jpc j) = 1%nat
  end.
Proof. destruct j as [a p]. by destruct p. Qed.

Lemma job_finishes n j js s fs :
  remaining (jpc j) = n →
  tasks (pool s) = j :: js →
  ∃ ls s', run ls (World s fs) = Some (World s' fs) ∧ tasks (pool s') = js.
Proof.
  revert j s. induction n as [|n IH]; intros j s Hn Ht; [by destruct j as [a []]|].
  pose proof (work_head None j js s fs Ht) as Hstep.
  pose proof (job_step_next None j s) as Hnext.
  destruct ((job_step None j s).2) as [j'|].
  - match type of Hstep with _ = Some (World ?s1 _) =>
      destruct (IH j' s1) as (ls & s' & Hrun & Hdone); [lia|reflexivity|] end.
    exists (LWork 0 None :: ls), s'. split; [|done].
    change (run (LWork 0 None :: ls) (World s fs))
      with (match step (LWork 0 None) (World s fs) with
            | Some w => run ls w
            | None => None
            end).
    by rewrite Hstep.
  - exists [LWork 0 None], (with_tasks js (job_step None j s).1). split; [|reflexivity].
    change (run [LWork 0 None] (World s fs))
      with (match step (LWork 0 None) (World s fs) with
            | Some w => Some w
            | None => None
            end).
    by rewrite Hstep.
Qed.

Lemma pool_drains js s fs :
  tasks (pool s) = js →
  ∃ ls s', run ls (World s fs) = Some (World s' fs) ∧ tasks (pool s') = [].
Proof.
  revert s. induction js as [|j js IH]; intros s Ht.
  - by exists [], s.
  - destruct (job_finishes _ j js s fs eq_refl Ht) as (ls1 & s1 & Hrun1 & Ht1).
    destruct (IH s1 Ht1) as (ls2 & s2 & Hrun2 & Ht2).
    exists (ls1 ++ ls2), s2. split; [|done]. by rewrite run_app, Hrun1.
Qed.

Lemma wait_returns i now s fs :
  fs !! i = Some FWait →
  tasks (pool s) = [] →
  step (LRun i now) (World s fs) = Some (World (log EvDestroyed s) (delete i fs)).
Proof.
  intros Hi Ht. simpl. rewrite Hi. simpl. by rewrite Ht.
Qed.

Lemma destroy_returns w i :
  frames w !! i = Some FWait →
  ∃ ls w', run ls w = Some w'
           ∧ tasks (pool (sto w')) = []
           ∧ EvDestroyed ∈ trace (sto w').
Proof.
  destruct w as [s fs]. simpl. intros Hi.
  destruct (pool_drains _ s fs eq_refl) as (ls & s' & Hrun & Ht).
  exists (ls ++ [LRun i 0]), (World (log EvDestroyed s') (delete i fs)). split.
  - rewrite run_app, Hrun.
    change (run [LRun i 0] (World s' fs))
      with (match step (LRun i 0) (World s' fs) with
            | Some w => Some w
            | None => None
            end).
    by rewrite (wait_returns i 0 s' fs Hi Ht).
  - simpl. split; [done|]. apply elem_of_app. right. left.
Qed.

(** [destroy] on an idle store is its three frames run in a row. *)
Lemma run_frame_destroy now s :
  tasks (pool s) = [] →
  run_frame 3 now FDestroy s = Some (log EvDestroyed (destroy s)).
Proof. intros Ht. simpl. by rewrite Ht. Qed.

(** ** The claims about the scheduler *)




(** C7 (amended). With a minimum update interval of 0, a lookup that finds
    a cached entry without the requested subkey only calls the notifier with
    that entry: it submits no job and touches neither the in-flight set nor
    the backlog; and the backlog of such a store is always empty. *)
Theorem unthrottled_partial_hit w now agent index entry :
  reachable w →
  minUpdateInterval (sto w) = 0 →
  Get agent (sto w) = Some (Some entry) →
  rows entry !! index = None →
  lookup now agent index (sto w) = Some (notify Caller agent (Some entry) (sto w))
  ∧ deferredUpdates (sto w) = ∅
  ∧ (∀ a t e, FAddBacklog a t e ∉ frames w).
Proof.
  intros Hr HI Hget Hrow.
  destruct (invariant_reachable w Hr) as (_ & _ & _ & _ & _ & _ & Hu & _).
  split.
  - unfold lookup. by rewrite Hget, Hrow, HI.
  - apply Hu. lia.
Qed.

(** C8. Once [destroy] has returned, in that world and in every later one:
    the store and the pool are stopped, the pool holds no job, the backlog
    is empty and its timer is not pending, no job has been submitted since,
    [addBacklog] changes nothing, and every job the pool ever took has run
    to its last statement. [destroy] returns only when the pool holds no
    job; a job in the pool can always execute its next statement, and from
    a world in which [destroy] waits the jobs can run to their end, after
    which it returns. *)
Theorem destroy_completed w :
  reachable w →
  EvDestroyed ∈ trace (sto w) →
  (∀ ls w', run ls w = Some w' →
     stopped (sto w') = true
     ∧ Stopped (sto w') = true
     ∧ tasks (pool (sto w')) = []
     ∧ deferredUpdates (sto w') = ∅
     ∧ (∀ t, deferredUpdatesTimer (sto w') = Some t → t_armed t = false)
     ∧ quiet (trace (sto w'))
     ∧ (∀ agent earliest, addBacklog agent earliest (sto w') = sto w')
     ∧ (∀ agent, tasks (pool (enqueue agent (sto w'))) = [])
     ∧ (∀ agent, count (is_submit agent) (trace (sto w'))
                 = count (is_release agent) (trace (sto w'))))
  ∧ (∀ now s r, frame_step now FWait s = Some r → tasks (pool s) = [])
  ∧ (∀ w0 i j upd, tasks (pool (sto w0)) !! i = Some j → is_Some (step (LWork i upd) w0))
  ∧ (∀ w0 i, frames w0 !! i = Some FWait →
             ∃ ls w', run ls w0 = Some w'
                      ∧ tasks (pool (sto w')) = []
                      ∧ EvDestroyed ∈ trace (sto w')).
Proof.
  intros Hr Hd. split; [|split; [|split]]; [| | |apply destroy_returns].
  - intros ls w' Hrun.
    pose proof (reachable_run _ _ _ Hr Hrun) as Hr'.
    destruct (trace_run _ _ _ Hrun) as [evs Hevs].
    assert (Hd' : EvDestroyed ∈ trace (sto w')).
    { rewrite Hevs. apply elem_of_app. by left. }
    destruct (invariant_reachable w' Hr')
      as (_ & _ & _ & Hb & (Hstop & _ & _ & Hpool & Hdone) & Hq & _).
    destruct (Hdone Hd') as [Hps Hts].
    pose proof (Hpool Hps) as Hst. destruct (Hstop Hst) as [HD Htm].
    repeat match goal with |- _ ∧ _ => split end; try done.
    + intros agent earliest. by apply addBacklog_stopped.
    + intros agent. unfold enqueue, LoadOrStore.
      case_bool_decide; simpl; [done|]. unfold Stopped in *. simpl. by rewrite Hps.
    + intros agent. rewrite (Hb agent), Hts. unfold jobs_of. simpl. lia.
  - intros now s r H. simpl in H. by destruct (tasks (pool s)).
  - intros w0 i j upd Hj. simpl. rewrite Hj. by destruct (job_step upd j (sto w0)).
Qed.

(** ** The scan of [refreshTimer] *)

(** When no key is the empty string, the scan returns an entry of the
    backlog with the least deadline. *)
Lemma scan_minimal (l : list (string * Z)) :
  l ≠ [] →
  (∀ kt, kt ∈ l → kt.1 ≠ "") →
  scan l ∈ l ∧ ∀ kt, kt ∈ l → (scan l).2 ≤ kt.2.
Proof.
  unfold scan.
  assert (Hgen : ∀ l acc,
             (∀ kt, kt ∈ l → kt.1 ≠ "") → acc.1 ≠ "" →
             let r := foldl (λ acc kt,
                               if bool_decide (acc.1 = "") || (kt.2 <? acc.2)
                               then kt else acc) acc l in
             (r = acc ∨ r ∈ l) ∧ r.2 ≤ acc.2 ∧ ∀ kt, kt ∈ l → r.2 ≤ kt.2).
  { clear. induction l as [|x l IH]; intros acc Hl Hacc; simpl.
    - split; [by left|]. split; [lia|]. intros kt Hkt. by apply not_elem_of_nil in Hkt.
    - rewrite bool_decide_false by done. simpl.
      assert (Hl' : ∀ kt, kt ∈ l → kt.1 ≠ "") by (intros kt Hkt; apply Hl; by right).
      destruct (x.2 <? acc.2) eqn:E.
      + destruct (IH x Hl') as (Hr & Hle & Hmin); [apply Hl; by left|].
        split; [right; destruct Hr as [->|Hr]; [by left|by right]|].
        split; [lia|]. intros kt [->|Hkt]%elem_of_cons; [done|by apply Hmin].
      + destruct (IH acc Hl' Hacc) as (Hr & Hle & Hmin).
        split; [destruct Hr as [Hr|Hr]; [by left|right; by right]|].
        split; [done|]. intros kt [->|Hkt]%elem_of_cons; [lia|by apply Hmin]. }
  intros Hne Hl. destruct l as [|x l]; [done|]. simpl.
  assert (Hx : x.1 ≠ "") by (apply Hl; by left).
  destruct (Hgen l x) as (Hr & Hle & Hmin); [intros kt Hkt; apply Hl; by right|done|].
  split.
  - destruct Hr as [->|Hr]; [by left|by right].
  - intros kt [->|Hkt]%elem_of_cons; [done|by apply Hmin].
Qed.

(** X7. As long as the empty string is not a key of the backlog, a pending
    timer is set for the least deadline of the backlog. *)
Lemma timer_minimal_nonempty w :
  (∀ n m, range n m ≡ₚ map_to_list m) →
  reachable w →
  "" ∉ dom (deferredUpdates (sto w)) →
  ∀ t, deferredUpdatesTimer (sto w) = Some t → t_armed t = true →
       deferredUpdates (sto w) !! t_agent t = Some (t_at t)
       ∧ ∀ k d, deferredUpdates (sto w) !! k = Some d → t_at t ≤ d.
Proof.
  intros Hrange Hr Hno t Ht Ha.
  destruct (invariant_reachable w Hr) as (_ & _ & _ & _ & _ & _ & _ & Htm).
  destruct (Htm t Ht Ha) as (_ & Hne & n & Hscan).
  destruct (scan_minimal (range n (deferredUpdates (sto w)))) as [Hin Hmin].
  - intros Hnil. apply Hne, map_to_list_empty_iff.
    apply Permutation_nil. by rewrite <- Hrange, Hnil.
  - intros [k d] Hkt Hk. simpl in Hk. subst k. apply Hno.
    rewrite Hrange in Hkt. apply elem_of_map_to_list in Hkt.
    apply elem_of_dom. by eexists.
  - rewrite <- Hscan in Hin, Hmin. split.
    + rewrite Hrange in Hin. by apply elem_of_map_to_list in Hin.
    + intros k d Hkd. apply (Hmin (k, d)). rewrite Hrange.
      by apply elem_of_map_to_list.
Qed.

(** * Further properties of the store *)

(** ** Where the data comes from *)

Lemma addBacklog_lookup agent earliest s k :
  deferredUpdates (addBacklog agent earliest s) !! k
  = if stopped s then deferredUpdates s !! k
    else if decide (k = agent)
         then Some (match deferredUpdates s !! agent with
                    | Some d => Z.min d earliest
                    | None => earliest
                    end)
         else deferredUpdates s !! k.
Proof.
  destruct (stopped s) eqn:Hs; [by rewrite addBacklog_stopped|].
  rewrite addBacklog_deferred by done.
  destruct (decide (k = agent)) as [->|Hne].
  - destruct (deferredUpdates s !! agent) as [d|] eqn:Hd.
    + destruct (earliest <? d) eqn:E.
      * rewrite lookup_insert_eq. f_equal. lia.
      * rewrite Hd. f_equal. lia.
    + by rewrite lookup_insert_eq.
  - destruct (deferredUpdates s !! agent) as [d|]; [destruct (earliest <? d)|];
      by rewrite ?lookup_insert_ne.
Qed.

Lemma cache_prov_stepped w w' : stepped w w' → cache_prov w → cache_prov w'.
Proof.
  intros Hst Hc. unfold cache_prov in *.
  destruct Hst; simpl in *; forget_backlog; simpl in *; try exact Hc.
  all: intros a0 e0 Hin.
  all: try (apply elem_of_app; left; by apply Hc).
  all: try (by apply Hc).
  - apply elem_of_app. destruct (decide (agent = a0)) as [->|Hne].
    + rewrite lookup_insert_eq in Hin. injection Hin as ->. right. left.
    + rewrite lookup_insert_ne in Hin by done. left. by apply Hc.
  - apply lookup_delete_Some in Hin as [_ Hin]. by apply Hc.
Qed.

Lemma frames_prov_stepped w w' :
  stepped w w' → cache_prov w → frames_prov w → frames_prov w'.
Proof.
  intros Hst Hc [Hn Hb]. unfold frames_prov, cache_prov, Get in *.
  assert (Hmono : ∀ (x : event) l ev, x ∈ l → x ∈ l ++ [ev])
    by (intros; apply elem_of_app; by left).
  destruct Hst; simpl in *; forget_backlog; simpl in *;
    try (match goal with H : _ ≡ₚ _ |- _ =>
           setoid_rewrite H in Hn; setoid_rewrite H in Hb; clear H end).
  all: try (destruct c; simpl).
  all: split; [intros a0 e0 Hin|intros a0 t0 e0 Hin].
  all: repeat (apply elem_of_cons in Hin as [Hin|Hin]; [try discriminate Hin|]).
  all: try (by apply Hn).
  all: try (by apply Hb).
  all: try (by apply Hn; right).
  all: try (by apply Hb; right).
  all: try (destruct (Hn a0 e0) as [? ?]; [by (assumption || (right; assumption))|];
            split; [done|]; by apply Hmono).
  all: try (destruct (Hb a0 t0 e0) as (? & ? & ? & ?); [by (assumption || (right; assumption))|];
            eexists; split; [done|]; split; [done|]; by apply Hmono).
  - injection Hin as -> ->. split; [by eexists|]. by apply Hc.
  - injection Hin as -> -> ->. eexists. split; [done|]. split; [done|]. by apply Hc.
  - injection Hin as -> ->.
    destruct (Hb agent earliest e) as (entry & -> & _ & Hin); [left|].
    split; [by eexists|done].
Qed.

Lemma caller_prov_stepped w w' :
  stepped w w' → frames_prov w → caller_prov w → caller_prov w'.
Proof.
  intros Hst [Hn _] Hp. unfold caller_prov in *.
  assert (Hmono : ∀ (x : event) l ev, x ∈ l → x ∈ l ++ [ev])
    by (intros; apply elem_of_app; by left).
  destruct Hst; simpl in *; forget_backlog; simpl in *; try exact Hp.
  all: intros a0 e0 [Hin|Hin%list_elem_of_singleton]%elem_of_app; try discriminate Hin.
  all: try (destruct (Hp a0 e0 Hin) as [? ?]; split; [done|]; by apply Hmono).
  injection Hin as -> ->.
  destruct (Hn agent e) as [? ?]; [rewrite H; left|].
  split; [done|]. by apply Hmono.
Qed.

Lemma deadline_prov_stepped w w' :
  stepped w w' → frames_prov w → deadline_prov w → deadline_prov w'.
Proof.
  intros Hst [_ Hb] Hd. unfold deadline_prov in *.
  assert (Hmono : ∀ (x : event) l ev, x ∈ l → x ∈ l ++ [ev])
    by (intros; apply elem_of_app; by left).
  destruct Hst; simpl in *; try exact Hd.
  all: intros a0 d0 Hin.
  all: try (destruct (Hd a0 d0 Hin) as (? & ? & ?); eexists; split; [done|]; by apply Hmono).
  - rewrite addBacklog_lookup in Hin.
    destruct (addBacklog_shape agent earliest s) as (D & T & ? & ->). simpl.
    destruct (Hb agent earliest e) as (entry & -> & Ht & Hev); [rewrite H; left|].
    destruct (stopped s); [by apply Hd|].
    destruct (decide (a0 = agent)) as [->|Hne]; [|by apply Hd].
    injection Hin as <-.
    destruct (deferredUpdates s !! agent) as [d|] eqn:Hda; [|by exists entry].
    destruct (Z.min_spec d earliest) as [[_ ->]|[_ ->]]; [by apply Hd|by exists entry].
  - by rewrite lookup_empty in Hin.
  - rewrite removeBacklog_deferred in Hin.
    destruct (removeBacklog_shape agent s) as (D & T & ? & ->). simpl.
    apply lookup_delete_Some in Hin as [_ Hin].
    destruct (Hd a0 d0 Hin) as (entry & ? & ?). exists entry. split; [done|]. by apply Hmono.
Qed.

Lemma provenance_stepped w w' : stepped w w' → provenance w → provenance w'.
Proof.
  intros Hst (Hc & Hf & Hp & Hd).
  split; [by eapply cache_prov_stepped|].
  split; [by eapply frames_prov_stepped|].
  split; [by eapply caller_prov_stepped|].
  by eapply deadline_prov_stepped.
Qed.

Lemma provenance_reachable w : reachable w → provenance w.
Proof.
  apply reachable_invariant; [|apply provenance_stepped].
  intros size ttl workers interval.
  unfold provenance, cache_prov, frames_prov, caller_prov, deadline_prov; simpl.
  split; [intros a e H; by rewrite lookup_empty in H|].
  split; [split; [intros a e H|intros a t e H]; by apply not_elem_of_nil in H|].
  split; [intros a e H; by apply not_elem_of_nil in H|].
  intros a d H. by rewrite lookup_empty in H.
Qed.

(** What a job put into the cache is what [update] returned to it. *)
Lemma installed_was_resolved agent e w :
  shape agent w →
  EvCacheAdd agent e ∈ trace (sto w) →
  EvUpdate agent e ∈ trace (sto w).
Proof.
  intros (es & Hnone & Hsome) Hin.
  assert (Hjt : EvCacheAdd agent e ∈ job_trace agent (sto w)).
  { apply list_elem_of_filter. split; [|done]. simpl. by rewrite bool_decide_true. }
  assert (Hback : ∀ ev, ev ∈ job_trace agent (sto w) → ev ∈ trace (sto w)).
  { intros ev Hev. by apply list_elem_of_filter in Hev as [_ ?]. }
  assert (Hcyc : ∀ l, job_trace agent (sto w) = (es ≫= cycle agent) ++ l →
                      EvCacheAdd agent e ∈ es ≫= cycle agent →
                      EvUpdate agent e ∈ trace (sto w)).
  { intros l Heq (e' & He' & Hes)%list_elem_of_bind.
    assert (e' = e) as ->.
    { unfold cycle in He'. repeat (apply elem_of_cons in He' as [He'|He']; try discriminate He').
      - by injection He'.
      - by apply not_elem_of_nil in He'. }
    apply Hback. rewrite Heq. apply elem_of_app. left.
    apply list_elem_of_bind. exists e. split; [left|done]. }
  destruct (decide (agent ∈ jagent <$> tasks (pool (sto w)))) as [Hj|Hn].
  - apply list_elem_of_fmap in Hj as ([a p] & -> & Hj). simpl in *.
    pose proof (Hsome p Hj) as Heq. rewrite Heq in Hjt.
    apply elem_of_app in Hjt as [Hjt|Hjt]; [by eapply Hcyc|].
    apply Hback. rewrite Heq. apply elem_of_app. right.
    destruct p; simpl in *;
      repeat (apply elem_of_cons in Hjt as [Hjt|Hjt]; try discriminate Hjt);
      try (by apply not_elem_of_nil in Hjt);
      injection Hjt as ->; left.
  - pose proof (Hnone Hn) as Heq. rewrite Heq in Hjt.
    apply (Hcyc []); [by rewrite app_nil_r|done].
Qed.



(** ** The backlog as a map *)

Lemma addBacklog_same_stopped agent earliest s :
  stopped (addBacklog agent earliest s) = stopped s.
Proof. by destruct (addBacklog_shape agent earliest s) as (D & T & ? & ->). Qed.

(** X1. [purge] empties the cache and touches nothing else: the pool, the
    in-flight set, the backlog, its timer, the stopped flag and the trace
    are the same. After it every key is a miss, so a lookup goes to
    [enqueue]; for a key that is in flight that changes nothing more. *)
Theorem purge_isolated now agent index s :
  pool (purge s) = pool s
  ∧ inflight (purge s) = inflight s
  ∧ deferredUpdates (purge s) = deferredUpdates s
  ∧ deferredUpdatesTimer (purge s) = deferredUpdatesTimer s
  ∧ stopped (purge s) = stopped s
  ∧ trace (purge s) = trace s
  ∧ Get agent (purge s) = None
  ∧ lookup now agent index (purge s) = Some (enqueue agent (purge s))
  ∧ (agent ∈ inflight s → lookup now agent index (purge s) = Some (purge s)).
Proof.
  assert (Hget : Get agent (purge s) = None) by apply lookup_empty.
  assert (Hl : lookup now agent index (purge s) = Some (enqueue agent (purge s))).
  { unfold lookup. by rewrite Hget. }
  repeat (split; [done|]).
  intros Hin. rewrite Hl. unfold enqueue, LoadOrStore. simpl.
  by rewrite bool_decide_true.
Qed.

(** X2. On a store that has not been destroyed, [addBacklog] leaves the key
    with the earlier of the recorded and the requested deadline, never with
    a later one than it had, and leaves every other key alone. *)
Theorem addBacklog_keeps_earliest agent earliest s :
  stopped s = false →
  deferredUpdates (addBacklog agent earliest s) !! agent
  = Some (match deferredUpdates s !! agent with
          | Some d => Z.min d earliest
          | None => earliest
          end)
  ∧ (∀ d, deferredUpdates s !! agent = Some d →
          ∃ d', deferredUpdates (addBacklog agent earliest s) !! agent = Some d' ∧ d' ≤ d)
  ∧ (∀ k, k ≠ agent →
          deferredUpdates (addBacklog agent earliest s) !! k = deferredUpdates s !! k).
Proof.
  intros Hs. split; [|split].
  - rewrite addBacklog_lookup, Hs. by rewrite decide_True.
  - intros d Hd. rewrite addBacklog_lookup, Hs, decide_True, Hd by done.
    eexists. split; [done|]. lia.
  - intros k Hk. rewrite addBacklog_lookup, Hs. by rewrite decide_False.
Qed.

(** X3. Asking twice for the same deadline is asking once: the second
    [addBacklog] returns the store unchanged, timer included. And the
    backlog two requests leave does not depend on their order, for the same
    key or for two keys. *)
Theorem addBacklog_idempotent_commutes a b t1 t2 s :
  addBacklog a t1 (addBacklog a t1 s) = addBacklog a t1 s
  ∧ deferredUpdates (addBacklog a t1 (addBacklog b t2 s))
    = deferredUpdates (addBacklog b t2 (addBacklog a t1 s)).
Proof.
  split.
  - destruct (stopped s) eqn:Hs.
    { rewrite (addBacklog_stopped a t1 s Hs). by apply addBacklog_stopped. }
    pose proof (addBacklog_lookup a t1 s a) as Hl. rewrite Hs, decide_True in Hl by done.
    pose proof (addBacklog_same_stopped a t1 s) as Hst. rewrite Hs in Hst.
    unfold addBacklog at 1. rewrite Hst, Hl.
    destruct (deferredUpdates s !! a) as [d|].
    + destruct (t1 <? Z.min d t1) eqn:E; [lia|done].
    + by rewrite Z.ltb_irrefl.
  - apply map_eq. intros k.
    rewrite !addBacklog_lookup, !addBacklog_same_stopped.
    destruct (stopped s); [done|].
    destruct (decide (k = a)) as [Ha|Ha]; destruct (decide (k = b)) as [Hb|Hb];
      subst; rewrite ?decide_True, ?decide_False by done; try done.
    destruct (deferredUpdates s !! b); f_equal; lia.
Qed.

(** X4. A deadline that was added and is removed leaves the backlog as it
    was without the key, whether the store is destroyed or not;
    [removeBacklog] deletes the entry of its key only, and does nothing to
    the backlog when the key has none. *)
Theorem backlog_round_trip agent earliest s :
  deferredUpdates (removeBacklog agent (addBacklog agent earliest s))
  = delete agent (deferredUpdates s)
  ∧ (deferredUpdates s !! agent = None →
     deferredUpdates (removeBacklog agent (addBacklog agent earliest s)) = deferredUpdates s
     ∧ deferredUpdates (removeBacklog agent s) = deferredUpdates s)
  ∧ deferredUpdates (removeBacklog agent s) !! agent = None
  ∧ (∀ k, k ≠ agent →
          deferredUpdates (removeBacklog agent s) !! k = deferredUpdates s !! k).
Proof.
  assert (Hrt : deferredUpdates (removeBacklog agent (addBacklog agent earliest s))
                = delete agent (deferredUpdates s)).
  { rewrite removeBacklog_deferred. apply map_eq. intros k.
    destruct (decide (k = agent)) as [->|Hne].
    - by rewrite !lookup_delete_eq.
    - rewrite !lookup_delete_ne, addBacklog_lookup by done.
      destruct (stopped s); [done|]. by rewrite decide_False. }
  split; [exact Hrt|]. split; [|split].
  - intros Hnone. rewrite Hrt, removeBacklog_deferred. by rewrite delete_id.
  - rewrite removeBacklog_deferred. apply lookup_delete_eq.
  - intros k Hk. rewrite removeBacklog_deferred. by apply lookup_delete_ne.
Qed.

(** ** The timer *)

Lemma scan_in (l : list (string * Z)) : l ≠ [] → scan l ∈ l.
Proof.
  assert (Hgen : ∀ l acc,
             let r := foldl (λ acc kt,
                               if bool_decide (acc.1 = "") || (kt.2 <? acc.2)
                               then kt else acc) acc l in
             r = acc ∨ r ∈ l).
  { clear. induction l as [|x l IH]; intros acc; simpl; [by left|].
    destruct (IH (if bool_decide (acc.1 = "") || (x.2 <? acc.2) then x else acc))
      as [H|H].
    - rewrite H. destruct (_ || _); [right; left|by left].
    - right. by right. }
  destruct l as [|x l]; [done|]. intros _.
  destruct (Hgen l x) as [H|H]; unfold scan; simpl in *; rewrite ?H.
  - left.
  - by right.
Qed.

(** X5. Whatever the iteration order of the backlog, a pending timer
    belongs to a store that is not destroyed, and the key it will enqueue
    is a key of the backlog whose deadline is the instant the timer fires
    at. *)
Theorem timer_in_backlog w t :
  (∀ n m, range n m ≡ₚ map_to_list m) →
  reachable w →
  deferredUpdatesTimer (sto w) = Some t →
  t_armed t = true →
  stopped (sto w) = false
  ∧ deferredUpdates (sto w) !! t_agent t = Some (t_at t).
Proof.
  intros Hrange Hr Ht Ha.
  destruct (invariant_reachable w Hr) as (_ & _ & _ & _ & _ & _ & _ & Htm).
  destruct (Htm t Ht Ha) as (Hs & Hne & n & Hscan). split; [done|].
  assert (Hin : scan (range n (deferredUpdates (sto w))) ∈ range n (deferredUpdates (sto w))).
  { apply scan_in. intros Hnil. apply Hne, map_to_list_empty_iff.
    apply Permutation_nil. by rewrite <- Hrange, Hnil. }
  rewrite <- Hscan, Hrange in Hin. by apply elem_of_map_to_list in Hin.
Qed.

(** X6. The loop of [refreshTimer] over a non-empty backlog returns one of
    its entries, and when no key is the empty string that entry has the
    earliest deadline. *)
Theorem scan_earliest (l : list (string * Z)) :
  l ≠ [] →
  scan l ∈ l
  ∧ ((∀ kt, kt ∈ l → kt.1 ≠ "") → ∀ kt, kt ∈ l → (scan l).2 ≤ kt.2).
Proof.
  intros Hl. split; [by apply scan_in|].
  intros Hk. by apply scan_minimal.
Qed.

(** ** What the store hands out *)

(** X8. What a lookup hands to the notifier is never nil: it is an entry
    that a job of the same key got from [update] and put into the cache. *)
Theorem caller_notifies_resolved agent e w :
  reachable w →
  EvNotify Caller agent e ∈ trace (sto w) →
  (∃ entry, e = Some entry)
  ∧ EvCacheAdd agent e ∈ trace (sto w)
  ∧ EvUpdate agent e ∈ trace (sto w).
Proof.
  intros Hr Hin.
  destruct (provenance_reachable w Hr) as (_ & _ & Hcall & _).
  destruct (invariant_reachable w Hr) as (_ & _ & Hshape & _).
  destruct (Hcall agent e Hin) as [He Hadd].
  split; [done|]. split; [done|].
  by apply installed_was_resolved.
Qed.

(** X9. The cache holds for a key only what [update] returned for that
    key: purging and eviction remove entries, nothing else writes one. *)
Theorem cache_holds_resolved agent e w :
  reachable w →
  Get agent (sto w) = Some e →
  EvCacheAdd agent e ∈ trace (sto w) ∧ EvUpdate agent e ∈ trace (sto w).
Proof.
  intros Hr Hget.
  destruct (provenance_reachable w Hr) as (Hcache & _).
  destruct (invariant_reachable w Hr) as (_ & _ & Hshape & _).
  pose proof (Hcache agent e Hget) as Hadd.
  split; [done|]. by apply installed_was_resolved.
Qed.

(** X10. A lookup, as a whole or at its first access, fails only on a key
    for which [update] has returned nil before. *)
Theorem lookup_fails_after_nil_update now agent index w :
  reachable w →
  lookup now agent index (sto w) = None ∨ frame_step now (FLookup agent index) (sto w) = None →
  Get agent (sto w) = Some None ∧ EvUpdate agent None ∈ trace (sto w).
Proof.
  intros Hr Hfail.
  assert (Hget : Get agent (sto w) = Some None).
  { destruct Hfail as [Hl|Hf]; [by apply lookup_fails in Hl|].
    simpl in Hf. destruct (Get agent (sto w)) as [[entry|]|]; [|done..].
    destruct (rows entry !! index); [done|].
    destruct (0 <? minUpdateInterval (sto w)); [|done].
    by destruct (minUpdateInterval (sto w) <? since now (created entry)). }
  split; [done|].
  destruct (provenance_reachable w Hr) as (Hcache & _).
  destruct (invariant_reachable w Hr) as (_ & _ & Hshape & _).
  apply installed_was_resolved; [done|]. by apply Hcache.
Qed.

(** X11. A deadline of the backlog exists only in a store that throttles
    and is not destroyed, and it is the creation time of an entry that
    [update] returned for that key plus the minimum update interval. *)
Theorem deadlines_from_creation agent d w :
  reachable w →
  deferredUpdates (sto w) !! agent = Some d →
  0 < minUpdateInterval (sto w)
  ∧ stopped (sto w) = false
  ∧ ∃ entry, d = created entry + minUpdateInterval (sto w)
             ∧ EvUpdate agent (Some entry) ∈ trace (sto w).
Proof.
  intros Hr Hd.
  destruct (provenance_reachable w Hr) as (_ & _ & _ & Hdead).
  destruct (invariant_reachable w Hr) as (_ & _ & Hshape & _ & Hshut & _ & Hun & _).
  split; [|split].
  - destruct (decide (0 < minUpdateInterval (sto w))) as [|Hle]; [done|].
    destruct Hun as [He _]; [lia|]. by rewrite He, lookup_empty in Hd.
  - destruct (stopped (sto w)) eqn:Hs; [|done].
    destruct Hshut as (Hst & _). destruct (Hst Hs) as [He _].
    by rewrite He, lookup_empty in Hd.
  - destruct (Hdead agent d Hd) as (entry & -> & Hadd).
    exists entry. split; [done|]. by apply installed_was_resolved.
Qed.

(** X12. No job is lost from sight, callbacks that panic included: for
    every key, at every moment, the jobs the pool has accepted are those
    that have released the in-flight mark, those that have ended in a panic
    of a callback, and those still in the pool. *)
Theorem no_job_lost agent w :
  xreachable w →
  count (is_submit agent) (trace (sto w))
  = (count (is_release agent) (trace (sto w))
     + count (is_panic agent) (trace (sto w))
     + jobs_of agent (tasks (pool (sto w))))%nat.
Proof.
  intros Hr.
  destruct (xinvariant_xreachable w Hr) as (_ & _ & Hbal).
  apply Hbal.
Qed.

(** X13. From the moment [destroy] has set the flag, also while it still
    waits for the pool: the backlog is empty, no timer is pending and none
    can fire, [addBacklog] does nothing, and [removeBacklog] creates no
    timer. *)
Theorem stopped_store_quiet w :
  reachable w →
  stopped (sto w) = true →
  deferredUpdates (sto w) = ∅
  ∧ (∀ t, deferredUpdatesTimer (sto w) = Some t → t_armed t = false)
  ∧ step LFire w = None
  ∧ (∀ agent earliest, addBacklog agent earliest (sto w) = sto w)
  ∧ (∀ agent, removeBacklog agent (sto w) = sto w).
Proof.
  intros Hr Hs.
  destruct (invariant_reachable w Hr) as (_ & _ & _ & _ & (Hst & _) & _).
  destruct (Hst Hs) as [He Ht].
  split; [done|]. split; [done|]. split; [|split].
  - simpl. destruct (deferredUpdatesTimer (sto w)) as [t|] eqn:E; [|done].
    by rewrite (Ht t eq_refl).
  - intros agent earliest. by apply addBacklog_stopped.
  - intros agent. rewrite removeBacklog_stopped by done.
    rewrite He, delete_empty, <- He. by destruct (sto w).
Qed.

(** ** The functions of the store *)

(** X15. A lookup that returns only adds: the cache, the flags and the
    settings are as before, no in-flight mark is removed, no deadline of
    the backlog is removed or moved later, and of a job submission and a
    notification it does at most one. *)
Theorem lookup_only_adds now agent index s s' :
  lookup now agent index s = Some s' →
  cache s' = cache s
  ∧ stopped s' = stopped s
  ∧ minUpdateInterval s' = minUpdateInterval s
  ∧ poolStopped (pool s') = poolStopped (pool s)
  ∧ inflight s ⊆ inflight s'
  ∧ (∀ k d, deferredUpdates s !! k = Some d →
            ∃ d', deferredUpdates s' !! k = Some d' ∧ d' ≤ d)
  ∧ ((tasks (pool s') = tasks (pool s) ∧ trace s' = trace s)
     ∨ (tasks (pool s') = tasks (pool s) ++ [Job agent PcUpdate]
        ∧ trace s' = trace s ++ [EvSubmit agent])
     ∨ (tasks (pool s') = tasks (pool s)
        ∧ ∃ entry, Get agent s = Some (Some entry)
                   ∧ trace s' = trace s ++ [EvNotify Caller agent (Some entry)])).
Proof.
  assert (Hkeep : ∀ m : gmap string Z, ∀ k d, m !! k = Some d → ∃ d', m !! k = Some d' ∧ d' ≤ d).
  { intros m k d H. exists d. split; [done|lia]. }
  assert (Henq : ∀ s0, s0 = enqueue agent s →
            cache s0 = cache s ∧ stopped s0 = stopped s
            ∧ minUpdateInterval s0 = minUpdateInterval s
            ∧ poolStopped (pool s0) = poolStopped (pool s)
            ∧ inflight s ⊆ inflight s0
            ∧ deferredUpdates s0 = deferredUpdates s
            ∧ ((tasks (pool s0) = tasks (pool s) ∧ trace s0 = trace s)
               ∨ (tasks (pool s0) = tasks (pool s) ++ [Job agent PcUpdate]
                  ∧ trace s0 = trace s ++ [EvSubmit agent]))).
  { intros s0 ->. unfold enqueue, LoadOrStore.
    destruct (bool_decide (agent ∈ inflight s)); simpl.
    - repeat (split; [done|]). by left.
    - unfold Stopped; simpl. destruct (poolStopped (pool s)) eqn:Hp; simpl.
      + repeat (split; [done|set_solver|]); try by left.
        split; [done|]. split; [done|]. split; [done|]. split; [done|].
        split; [set_solver|]. split; [done|]. by left.
      + split; [done|]. split; [done|]. split; [done|]. split; [done|].
        split; [set_solver|]. split; [done|]. by right. }
  assert (Hfin : ∀ s0, s0 = enqueue agent s →
            cache s0 = cache s ∧ stopped s0 = stopped s
            ∧ minUpdateInterval s0 = minUpdateInterval s
            ∧ poolStopped (pool s0) = poolStopped (pool s)
            ∧ inflight s ⊆ inflight s0
            ∧ (∀ k d, deferredUpdates s !! k = Some d →
                      ∃ d', deferredUpdates s0 !! k = Some d' ∧ d' ≤ d)
            ∧ ((tasks (pool s0) = tasks (pool s) ∧ trace s0 = trace s)
               ∨ (tasks (pool s0) = tasks (pool s) ++ [Job agent PcUpdate]
                  ∧ trace s0 = trace s ++ [EvSubmit agent])
               ∨ (tasks (pool s0) = tasks (pool s)
                  ∧ ∃ entry, Get agent s = Some (Some entry)
                             ∧ trace s0 = trace s ++ [EvNotify Caller agent (Some entry)]))).
  { intros s0 H0. destruct (Henq s0 H0) as (? & ? & ? & ? & ? & Hd & Hcase).
    repeat (split; [done|]). split; [rewrite Hd; apply Hkeep|].
    destruct Hcase as [?|?]; [by left|by right; left]. }
  unfold lookup.
  destruct (Get agent s) as [[entry|]|] eqn:Hget; [|done|].
  2: { intros [= <-]. by apply Hfin. }
  assert (Hnot : ∀ s0, s0 = notify Caller agent (Some entry) s →
            cache s0 = cache s ∧ stopped s0 = stopped s
            ∧ minUpdateInterval s0 = minUpdateInterval s
            ∧ poolStopped (pool s0) = poolStopped (pool s)
            ∧ inflight s ⊆ inflight s0
            ∧ (∀ k d, deferredUpdates s !! k = Some d →
                      ∃ d', deferredUpdates s0 !! k = Some d' ∧ d' ≤ d)
            ∧ ((tasks (pool s0) = tasks (pool s) ∧ trace s0 = trace s)
               ∨ (tasks (pool s0) = tasks (pool s) ++ [Job agent PcUpdate]
                  ∧ trace s0 = trace s ++ [EvSubmit agent])
               ∨ (tasks (pool s0) = tasks (pool s)
                  ∧ ∃ entry0, Some (Some entry) = Some (Some entry0)
                              ∧ trace s0 = trace s ++ [EvNotify Caller agent (Some entry0)]))).
  { intros s0 ->. simpl. repeat (split; [done|]). split; [apply Hkeep|].
    right; right. split; [done|]. by exists entry. }
  destruct (rows entry !! index).
  { intros [= <-]. by apply Hnot. }
  destruct (0 <? minUpdateInterval s).
  2: { intros [= <-]. by apply Hnot. }
  destruct (minUpdateInterval s <? since now (created entry)).
  { intros [= <-]. by apply Hfin. }
  intros [= <-].
  pose proof (addBacklog_lookup agent (created entry + minUpdateInterval s) s) as Hl.
  destruct (addBacklog_shape agent (created entry + minUpdateInterval s) s) as (D & T & N & Heq).
  rewrite Heq in Hl |- *. simpl in *.
  repeat (split; [done|]). split.
  - intros k d Hd. rewrite Hl. destruct (stopped s); [by apply Hkeep|].
    destruct (decide (k = agent)) as [->|]; [|by apply Hkeep].
    rewrite Hd. eexists. split; [done|]. lia.
  - right; right. split; [done|]. by exists entry.
Qed.

(** X16. A second [enqueue] of a key right after the first does nothing:
    the first one leaves the in-flight mark, on a stopped pool as well. *)
Theorem enqueue_idempotent agent s :
  agent ∈ inflight (enqueue agent s)
  ∧ enqueue agent (enqueue agent s) = enqueue agent s.
Proof.
  assert (Hin : agent ∈ inflight (enqueue agent s)).
  { unfold enqueue, LoadOrStore.
    destruct (bool_decide (agent ∈ inflight s)) eqn:Hb; simpl.
    - by apply bool_decide_eq_true in Hb.
    - destruct (Stopped _); simpl; set_solver. }
  split; [done|].
  unfold enqueue at 1. unfold LoadOrStore. by rewrite bool_decide_true.
Qed.

(** X17. [destroy] twice is [destroy] once, and on a destroyed store a
    lookup that returns starts nothing: the pool has the jobs it had, the
    backlog is empty and there is no timer. *)
Theorem destroyed_store_inert now agent index s :
  destroy (destroy s) = destroy s
  ∧ ∀ s', lookup now agent index (destroy s) = Some s' →
          tasks (pool s') = tasks (pool s)
          ∧ deferredUpdates s' = ∅
          ∧ deferredUpdatesTimer s' = None
          ∧ (∀ agent', EvSubmit agent' ∈ trace s' → EvSubmit agent' ∈ trace s).
Proof.
  split; [done|]. intros s'.
  assert (Henq : ∀ s0, s0 = enqueue agent (destroy s) →
            tasks (pool s0) = tasks (pool s) ∧ deferredUpdates s0 = ∅
            ∧ deferredUpdatesTimer s0 = None
            ∧ (∀ agent', EvSubmit agent' ∈ trace s0 → EvSubmit agent' ∈ trace s)).
  { intros s0 ->. unfold enqueue, LoadOrStore. simpl.
    by destruct (bool_decide (agent ∈ inflight s)). }
  assert (Hnot : ∀ e s0, s0 = notify Caller agent e (destroy s) →
            tasks (pool s0) = tasks (pool s) ∧ deferredUpdates s0 = ∅
            ∧ deferredUpdatesTimer s0 = None
            ∧ (∀ agent', EvSubmit agent' ∈ trace s0 → EvSubmit agent' ∈ trace s)).
  { intros e s0 ->. simpl. repeat (split; [done|]).
    intros a [H|H]%elem_of_app; [done|].
    apply list_elem_of_singleton in H. discriminate H. }
  unfold lookup.
  destruct (Get agent (destroy s)) as [[entry|]|]; [|done|].
  2: { intros [= <-]. by apply Henq. }
  destruct (rows entry !! index).
  { intros [= <-]. by eapply Hnot. }
  destruct (0 <? minUpdateInterval (destroy s)).
  2: { intros [= <-]. by eapply Hnot. }
  destruct (minUpdateInterval (destroy s) <? since now (created entry)).
  { intros [= <-]. by apply Henq. }
  intros [= <-]. rewrite addBacklog_stopped by done. by eapply Hnot.
Qed.

(** X18. [refreshTimer] changes the timer only (and counts its loop). The
    timer it leaves is pending exactly when the backlog is not empty and the
    store is not destroyed. Otherwise it is the old timer, stopped, and a
    second call changes nothing. On a backlog that is not empty every call
    runs the loop again, in an order of its own, and arms the timer for the
    entry this loop ends with: two calls in a row need not arm the same
    timer. *)
Theorem refreshTimer_arms_iff s :
  refreshTimer s
  = with_draws (draws (refreshTimer s))
      (with_timer (deferredUpdatesTimer (refreshTimer s)) s)
  ∧ ((∃ t, deferredUpdatesTimer (refreshTimer s) = Some t ∧ t_armed t = true)
     ↔ deferredUpdates s ≠ ∅ ∧ stopped s = false)
  ∧ (deferredUpdates s = ∅ ∨ stopped s = true →
     refreshTimer s = with_timer (stopTimer (deferredUpdatesTimer s)) s
     ∧ refreshTimer (refreshTimer s) = refreshTimer s)
  ∧ (deferredUpdates s ≠ ∅ → stopped s = false →
     let first := scan (range (draws s) (deferredUpdates s)) in
     let second := scan (range (S (draws s)) (deferredUpdates s)) in
     deferredUpdatesTimer (refreshTimer s) = Some (Timer first.1 first.2 true)
     ∧ deferredUpdatesTimer (refreshTimer (refreshTimer s))
       = Some (Timer second.1 second.2 true)).
Proof.
  assert (Hstop : ∀ t0 t, stopTimer t0 = Some t → t_armed t = false).
  { intros [t0|] t [= <-]. done. }
  assert (Hidle : deferredUpdates s = ∅ ∨ stopped s = true →
                  refreshTimer s = with_timer (stopTimer (deferredUpdatesTimer s)) s).
  { intros Hor. unfold refreshTimer; simpl.
    destruct (bool_decide (size (deferredUpdates s) = 0%nat)) eqn:Hsz; [done|].
    apply bool_decide_eq_false in Hsz.
    destruct Hor as [He|Hs]; [|by rewrite Hs].
    exfalso. apply Hsz. rewrite He. apply map_size_empty. }
  assert (Hbusy : deferredUpdates s ≠ ∅ → stopped s = false →
                  refreshTimer s
                  = with_draws (S (draws s))
                      (with_timer
                         (Some (Timer (scan (range (draws s) (deferredUpdates s))).1
                                      (scan (range (draws s) (deferredUpdates s))).2 true)) s)).
  { intros Hne Hs. unfold refreshTimer; simpl.
    rewrite bool_decide_false, Hs; [by destruct s|].
    by intros ?%map_size_empty_iff. }
  split; [|split; [|split]].
  - destruct (refreshTimer_shape s) as (T & N & ->). by destruct s.
  - split.
    + intros (t & Ht & Ha).
      destruct (decide (deferredUpdates s = ∅)) as [He|Hne].
      { rewrite Hidle in Ht by (by left). by rewrite (Hstop _ _ Ht) in Ha. }
      split; [done|]. destruct (stopped s) eqn:Hs; [|done].
      rewrite Hidle in Ht by (by right). by rewrite (Hstop _ _ Ht) in Ha.
    + intros [Hne Hs]. rewrite Hbusy by done. by eexists.
  - intros Hor. split; [by apply Hidle|].
    rewrite (Hidle Hor). unfold refreshTimer; simpl.
    destruct (bool_decide (size (deferredUpdates s) = 0%nat)) eqn:Hsz; simpl.
    + by destruct (deferredUpdatesTimer s).
    + apply bool_decide_eq_false in Hsz.
      destruct Hor as [He|Hs].
      * exfalso. apply Hsz. rewrite He. apply map_size_empty.
      * rewrite Hs. by destruct (deferredUpdatesTimer s).
  - intros Hne Hs. simpl. split; [by rewrite Hbusy|].
    rewrite (Hbusy Hne Hs). unfold refreshTimer; simpl.
    rewrite bool_decide_false, Hs; [done|].
    by intros ?%map_size_empty_iff.
Qed.

(** X19. With throttling on, a lookup of a cached key whose row is missing
    goes to [enqueue] exactly when more than the minimum update interval
    lies between the creation of the entry and now, and the interval is
    below the largest duration: the elapsed time saturates there, so with
    the largest interval no lookup ever resolves the key again by itself. *)
Theorem lookup_elapsed_iff now agent index s entry :
  Get agent s = Some (Some entry) →
  rows entry !! index = None →
  0 < minUpdateInterval s →
  lookup now agent index s = Some (enqueue agent s)
  ↔ minUpdateInterval s < now - created entry ∧ minUpdateInterval s < maxDuration.
Proof.
  intros Hget Hrow Hpos. unfold lookup. rewrite Hget, Hrow.
  destruct (0 <? minUpdateInterval s) eqn:E; [clear E|lia].
  assert (Hsince : minUpdateInterval s < since now (created entry)
                   ↔ minUpdateInterval s < now - created entry
                     ∧ minUpdateInterval s < maxDuration).
  { unfold since, clamp64, minDuration, maxDuration in *. repeat case_match; lia. }
  destruct (minUpdateInterval s <? since now (created entry)) eqn:E.
  - split; [|done]. intros _. apply Hsince. lia.
  - split.
    + intros [= Heq]. apply (f_equal trace) in Heq. simpl in Heq.
      rewrite addBacklog_trace in Heq.
      destruct (enqueue_trace agent s) as [Ht|Ht]; rewrite Ht in Heq.
      * apply (f_equal length) in Heq. rewrite length_app in Heq. simpl in Heq. lia.
      * apply app_inv_head in Heq. discriminate Heq.
    + intros H%Hsince. lia.
Qed.

End proofs.

(** * The claims at concrete inputs *)

Lemma ex_boot_reachable range interval : reachable range (ex_boot interval).
Proof. by exists 16, 3600, 4, interval, []. Qed.

Lemma ex_cached_run interval :
  run range_fwd ex_resolve (ex_boot interval) = Some (ex_cached interval).
Proof. vm_compute. reflexivity. Qed.

Lemma ex_cached_reachable interval : reachable range_fwd (ex_cached interval).
Proof. exists 16, 3600, 4, interval, ex_resolve. apply ex_cached_run. Qed.

Lemma ex_midjob_reachable : reachable range_fwd ex_midjob.
Proof. exists 16, 3600, 4, 30, ex_resolving. vm_compute. reflexivity. Qed.

Lemma range_rev_spec n m : range_rev n m ≡ₚ map_to_list m.
Proof. unfold range_rev. apply reverse_Permutation. Qed.

(** C1, at a failing input: with an interval of 30 and an entry created at
    100, the partial-hit lookup at 200 only submits a job; the notifier is
    not called in it. *)
Lemma lookup_elapsed_no_notify :
  reachable range_fwd (ex_cached 30)
  ∧ Get "sw1" (sto (ex_cached 30)) = Some (Some ex_entry)
  ∧ rows ex_entry !! "eth1" = None
  ∧ ∃ s', lookup range_fwd 200 "sw1" "eth1" (sto (ex_cached 30)) = Some s'
          ∧ trace s' = trace (sto (ex_cached 30)) ++ [EvSubmit "sw1"]
          ∧ ∀ o e, EvNotify o "sw1" e ∉ [EvSubmit "sw1"].
Proof.
  split; [apply ex_cached_reachable|].
  split; [vm_compute; reflexivity|]. split; [vm_compute; reflexivity|].
  eexists. split; [vm_compute; reflexivity|]. split; [vm_compute; reflexivity|].
  intros o e H. apply list_elem_of_singleton in H. discriminate H.
Qed.






(** C5, at a failing input. The backlog holds "a" with the deadline 115
    and the timer is pending for it; the empty key arrives with the earlier
    deadline 110. When the loop of [refreshTimer] visits the empty key
    first, the test [agent == ""] holds again at the next entry, which is
    taken whatever its deadline: the timer stays at 115 although the least
    deadline of the backlog is 110. *)
Theorem timer_misses_empty_agent :
  (∀ n m, range_rev n m ≡ₚ map_to_list m)
  ∧ (∃ w, run range_rev ex_two_deadlines (ex_boot 10) = Some w
          ∧ deferredUpdates (sto w) = {[ "" := 110; "a" := 115 ]}
          ∧ deferredUpdatesTimer (sto w) = Some (Timer "a" 115 true))
  ∧ (∀ n, range_rev n {[ "" := 110; "a" := 115 ]} = [("", 110); ("a", 115)])
  ∧ scan [("", 110); ("a", 115)] = ("a", 115)
  ∧ scan [("a", 115); ("", 110)] = ("", 110).
Proof.
  split; [apply range_rev_spec|].
  split; [eexists; split; [vm_compute; reflexivity|]; split; vm_compute; reflexivity|].
  split; [intros n; vm_compute; reflexivity|]. split; reflexivity.
Qed.

(** C6, at a concrete input: interval 30, entry created at 100, lookups at
    105 and at 110. *)
Lemma throttle_deadline_witness :
  stopped (sto (ex_cached 30)) = false
  ∧ minUpdateInterval (sto (ex_cached 30)) = 30
  ∧ Get "sw1" (sto (ex_cached 30)) = Some (Some ex_entry)
  ∧ created ex_entry = 100
  ∧ rows ex_entry !! "eth1" = None
  ∧ (∀ d, deferredUpdates (sto (ex_cached 30)) !! "sw1" = Some d → 100 + 30 ≤ d)
  ∧ 0 < 5 < 30
  ∧ 5 < 10 < 30
  ∧ ∃ s1 s2,
      lookup range_fwd (100 + 5) "sw1" "eth1" (sto (ex_cached 30)) = Some s1
      ∧ deferredUpdates s1 = <["sw1" := 100 + 30]> (deferredUpdates (sto (ex_cached 30)))
      ∧ lookup range_fwd (100 + 10) "sw1" "eth1" s1 = Some s2
      ∧ deferredUpdates s2 = deferredUpdates s1
      ∧ deferredUpdates s2 !! "sw1" = Some (100 + 30).
Proof.
  assert (H1 : stopped (sto (ex_cached 30)) = false) by reflexivity.
  assert (H2 : minUpdateInterval (sto (ex_cached 30)) = 30) by reflexivity.
  assert (H3 : Get "sw1" (sto (ex_cached 30)) = Some (Some ex_entry))
    by (vm_compute; reflexivity).
  assert (H4 : created ex_entry = 100) by reflexivity.
  assert (H5 : rows ex_entry !! "eth1" = None) by (vm_compute; reflexivity).
  assert (H6 : ∀ d, deferredUpdates (sto (ex_cached 30)) !! "sw1" = Some d → 100 + 30 ≤ d)
    by (vm_compute; intros d H; discriminate H).
  assert (H7 : 0 < 5 < 30) by lia.
  assert (H8 : 5 < 10 < 30) by lia.
  repeat (split; [assumption|]).
  apply (throttle_deadline range_fwd 30 100 5 10 "sw1" "eth1" (sto (ex_cached 30)) ex_entry
           H1 H2 H3 H4 H5 H6 H7 H8).
Defined.

(** C6 as stated fails. On a store that runs: the key has the deadline 130,
    left by a lookup that had read an older entry, the cached entry was
    created at 120 and the interval is 30; the partial-hit lookup at 125
    leaves the deadline at 130, not at 150. On a destroyed store: the
    partial-hit lookup at 105 of the entry created at 100 leaves the backlog
    empty. *)
Lemma throttle_deadline_not_always :
  (∃ w s1, run range_fwd ex_stale (ex_boot 30) = Some w
           ∧ stopped (sto w) = false
           ∧ minUpdateInterval (sto w) = 30
           ∧ Get "sw1" (sto w) = Some (Some ex_entry2)
           ∧ created ex_entry2 = 120
           ∧ rows ex_entry2 !! "eth1" = None
           ∧ lookup range_fwd (120 + 5) "sw1" "eth1" (sto w) = Some s1
           ∧ deferredUpdates s1 !! "sw1" = Some 130)
  ∧ (∃ w s1, run range_fwd (ex_resolve ++ ex_shutdown) (ex_boot 30) = Some w
             ∧ minUpdateInterval (sto w) = 30
             ∧ Get "sw1" (sto w) = Some (Some ex_entry)
             ∧ created ex_entry = 100
             ∧ rows ex_entry !! "eth1" = None
             ∧ lookup range_fwd (100 + 5) "sw1" "eth1" (sto w) = Some s1
             ∧ deferredUpdates s1 = ∅).
Proof.
  split.
  - eexists _, _. split; [vm_compute; reflexivity|].
    repeat (split; [vm_compute; reflexivity|]). vm_compute. reflexivity.
  - eexists _, _. split; [vm_compute; reflexivity|].
    repeat (split; [vm_compute; reflexivity|]). vm_compute. reflexivity.
Qed.

(** C7, at a concrete input: interval 0, the entry of "sw1" has no row
    "eth2". *)
Lemma unthrottled_partial_hit_witness :
  reachable range_fwd (ex_cached 0)
  ∧ minUpdateInterval (sto (ex_cached 0)) = 0
  ∧ Get "sw1" (sto (ex_cached 0)) = Some (Some ex_entry)
  ∧ rows ex_entry !! "eth2" = None
  ∧ lookup range_fwd 200 "sw1" "eth2" (sto (ex_cached 0))
    = Some (notify Caller "sw1" (Some ex_entry) (sto (ex_cached 0))).
Proof.
  assert (Hget : Get "sw1" (sto (ex_cached 0)) = Some (Some ex_entry))
    by (vm_compute; reflexivity).
  assert (Hrow : rows ex_entry !! "eth2" = None) by (vm_compute; reflexivity).
  split; [apply ex_cached_reachable|]. split; [reflexivity|].
  split; [exact Hget|]. split; [exact Hrow|].
  apply (unthrottled_partial_hit range_fwd (ex_cached 0) 200 "sw1" "eth2" ex_entry
           (ex_cached_reachable 0) eq_refl Hget Hrow).
Defined.

(** C7 as stated fails: with an interval of 0, the lookup of the missing
    row "eth2" submits no job; it only notifies. *)
Lemma unthrottled_lookup_submits_nothing :
  reachable range_fwd (ex_cached 0)
  ∧ minUpdateInterval (sto (ex_cached 0)) = 0
  ∧ Get "sw1" (sto (ex_cached 0)) = Some (Some ex_entry)
  ∧ rows ex_entry !! "eth2" = None
  ∧ ∃ s', lookup range_fwd 200 "sw1" "eth2" (sto (ex_cached 0)) = Some s'
          ∧ trace s' = trace (sto (ex_cached 0)) ++ [EvNotify Caller "sw1" (Some ex_entry)]
          ∧ tasks (pool s') = []
          ∧ inflight s' = ∅.
Proof.
  split; [apply ex_cached_reachable|]. split; [reflexivity|].
  split; [vm_compute; reflexivity|]. split; [vm_compute; reflexivity|].
  eexists. split; [vm_compute; reflexivity|].
  split; [vm_compute; reflexivity|]. split; reflexivity.
Qed.

(** C8, at a concrete input: [destroy] is called while the job of "sw3"
    runs, cannot return before the job has finished, and returns after it;
    a lookup after that submits nothing. *)
Lemma destroy_completed_witness :
  reachable range_fwd ex_drained
  ∧ EvDestroyed ∈ trace (sto ex_drained)
  ∧ run range_fwd (take 8 ex_busy_shutdown ++ [LRun 0 0]) (ex_boot 30) = None
  ∧ (∃ w', run range_fwd ex_late_lookup ex_drained = Some w'
           ∧ tasks (pool (sto w')) = []
           ∧ deferredUpdates (sto w') = ∅
           ∧ trace (sto w') = trace (sto ex_drained)).
Proof.
  assert (Hr : reachable range_fwd ex_drained).
  { exists 16, 3600, 4, 30, ex_busy_shutdown. vm_compute. reflexivity. }
  assert (Hd : EvDestroyed ∈ trace (sto ex_drained)).
  { simpl. do 6 right. left. }
  split; [exact Hr|]. split; [exact Hd|]. split; [vm_compute; reflexivity|].
  destruct (destroy_completed range_fwd ex_drained Hr Hd) as [Hall _].
  eexists. split; [vm_compute; reflexivity|].
  match goal with |- tasks (pool (sto ?w)) = [] ∧ _ =>
    destruct (Hall ex_late_lookup w) as (_ & _ & Ht & HD & _);
      [vm_compute; reflexivity|]
  end.
  split; [exact Ht|]. split; [exact HD|]. vm_compute. reflexivity.
Defined.

(** C9, at a concrete input: a store made with a negative size, a negative
    TTL, no worker and a negative interval resolves "sw1", and a lookup of
    "sw1" on the store it has then does not fail. *)
Lemma newStore_accepts_witness :
  ∃ w, run range_fwd ex_resolve (World (newStore (-1) (-1) 0 (-1)) []) = Some w
       ∧ Get "sw1" (sto w) = Some (Some ex_entry)
       ∧ lookup range_fwd 200 "sw1" "eth1" (sto w) ≠ None.
Proof.
  eexists. split; [vm_compute; reflexivity|]. split; [vm_compute; reflexivity|].
  match goal with |- lookup _ _ _ _ (sto ?w) ≠ None =>
    destruct (newStore_accepts range_fwd (-1) (-1) 0 (-1)) as (_ & _ & _ & Hall);
    destruct (Hall ex_resolve w) with (now := 200) (agent := "sw1") (index := "eth1")
      as [Hiff _]; [vm_compute; reflexivity|];
    intros Hfail; apply Hiff in Hfail
  end.
  vm_compute in Hfail. discriminate Hfail.
Defined.

(** C9 as stated fails: [newStore] returns a store for a negative size, a
    negative TTL, no worker and a negative minimum update interval, and a
    lookup on that store proceeds. *)
Lemma newStore_takes_invalid_values :
  newStore (-1) (-1) 0 (-1)
  = Store (LRU (-1) (-1) ∅) (WorkerPool 0 1 [] false) (-1) ∅ ∅ None false [] 0%nat
  ∧ ∃ s, lookup range_fwd 0 "sw1" "eth0" (newStore (-1) (-1) 0 (-1)) = Some s
         ∧ tasks (pool s) = [Job "sw1" PcUpdate].
Proof.
  split; [reflexivity|]. eexists. split; [vm_compute; reflexivity|]. reflexivity.
Qed.

(** C10, at a concrete input: a job whose [update] returns nil. *)
Lemma job_installs_update_witness :
  reachable range_fwd (ex_cached 30)
  ∧ EvNotify Worker "sw1" (Some ex_entry) ∈ trace (sto (ex_cached 30))
  ∧ EvCacheAdd "sw1" (Some ex_entry) ∈ trace (sto (ex_cached 30))
  ∧ Get "sw1" (run_job range_fwd None "sw1" (sto (ex_cached 30))) = Some None.
Proof.
  assert (Hin : EvNotify Worker "sw1" (Some ex_entry) ∈ trace (sto (ex_cached 30))).
  { simpl. do 4 right. left. }
  destruct (job_installs_update range_fwd None "sw1" (sto (ex_cached 30)))
    as (Hget & _ & _ & _ & Hall).
  split; [apply ex_cached_reachable|]. split; [exact Hin|]. split; [|exact Hget].
  apply (Hall (ex_cached 30) (Some ex_entry) (ex_cached_reachable 30) Hin).
Defined.

(** * Further properties at concrete inputs *)

Lemma ex_backlogged_reachable : reachable range_fwd (World ex_backlogged []).
Proof. exists 16, 3600, 4, 30, (ex_resolve ++ ex_deferring). vm_compute. reflexivity. Qed.

Lemma ex_nil_cached_reachable : reachable range_fwd ex_nil_cached.
Proof. exists 16, 3600, 4, 30, ex_resolve_nil. vm_compute. reflexivity. Qed.

Lemma ex_stopping_reachable : reachable range_fwd ex_stopping.
Proof. exists 16, 3600, 4, 30, (take 8 ex_busy_shutdown). vm_compute. reflexivity. Qed.

Lemma range_fwd_spec n m : range_fwd n m ≡ₚ map_to_list m.
Proof. reflexivity. Qed.

(** X2, at a concrete input: "sw1" has the deadline 130; a request for 120
    moves it to 120, a request for 140 leaves it. *)
Lemma addBacklog_keeps_earliest_witness :
  stopped ex_backlogged = false
  ∧ deferredUpdates (addBacklog range_fwd "sw1" 120 ex_backlogged) !! "sw1" = Some 120
  ∧ deferredUpdates (addBacklog range_fwd "sw1" 140 ex_backlogged) !! "sw1" = Some 130.
Proof.
  split; [reflexivity|]. split.
  - destruct (addBacklog_keeps_earliest range_fwd "sw1" 120 ex_backlogged eq_refl)
      as [H _]. exact H.
  - destruct (addBacklog_keeps_earliest range_fwd "sw1" 140 ex_backlogged eq_refl)
      as [H _]. exact H.
Defined.

(** X5, at a concrete input: the timer of [ex_backlogged] is set for "sw1"
    at 130, the deadline of "sw1". *)
Lemma timer_in_backlog_witness :
  reachable range_fwd (World ex_backlogged [])
  ∧ deferredUpdatesTimer ex_backlogged = Some (Timer "sw1" 130 true)
  ∧ stopped ex_backlogged = false
  ∧ deferredUpdates ex_backlogged !! "sw1" = Some 130.
Proof.
  split; [apply ex_backlogged_reachable|]. split; [reflexivity|].
  apply (timer_in_backlog range_fwd (World ex_backlogged []) (Timer "sw1" 130 true)
           range_fwd_spec ex_backlogged_reachable eq_refl eq_refl).
Defined.

(** X6, at a concrete input: two keys, the later one visited first. *)
Lemma scan_earliest_witness :
  [("a", 115); ("b", 110)] ≠ []
  ∧ scan [("a", 115); ("b", 110)] ∈ [("a", 115); ("b", 110)]
  ∧ (scan [("a", 115); ("b", 110)]).2 ≤ 115.
Proof.
  assert (Hne : [("a", 115); ("b", 110)] ≠ @nil (string * Z)) by discriminate.
  split; [exact Hne|].
  destruct (scan_earliest [("a", 115); ("b", 110)] Hne) as [Hin Hmin].
  split; [exact Hin|].
  refine (Hmin _ ("a", 115) _); [|left].
  intros kt Hkt. apply elem_of_cons in Hkt as [->|Hkt]; [discriminate|].
  apply list_elem_of_singleton in Hkt as ->. discriminate.
Defined.

(** X7, at a concrete input: the backlog holds "a" with the deadline 115
    and "b" with the deadline 110, no key is empty, and the loop visits "a"
    first; the timer is set for "b" at 110, the least deadline. *)
Lemma timer_minimal_nonempty_witness :
  ∃ w, run range_fwd ex_two_keys (ex_boot 10) = Some w
       ∧ (∀ n, range_fwd n (deferredUpdates (sto w)) = [("a", 115); ("b", 110)])
       ∧ "" ∉ dom (deferredUpdates (sto w))
       ∧ deferredUpdatesTimer (sto w) = Some (Timer "b" 110 true)
       ∧ deferredUpdates (sto w) !! "b" = Some 110
       ∧ ∀ k d, deferredUpdates (sto w) !! k = Some d → 110 ≤ d.
Proof.
  eexists. split; [vm_compute; reflexivity|].
  split; [intros n; vm_compute; reflexivity|].
  match goal with |- "" ∉ dom (deferredUpdates (sto ?w)) ∧ _ =>
    assert (Hr : reachable range_fwd w)
      by (exists 16, 3600, 4, 10, ex_two_keys; vm_compute; reflexivity);
    assert (Hno : "" ∉ dom (deferredUpdates (sto w)))
      by (intros [x Hx]%elem_of_dom; vm_compute in Hx; discriminate Hx);
    assert (Ht : deferredUpdatesTimer (sto w) = Some (Timer "b" 110 true))
      by (vm_compute; reflexivity);
    pose proof (timer_minimal_nonempty range_fwd w range_fwd_spec Hr Hno
                  (Timer "b" 110 true) Ht eq_refl) as [Hin Hmin]
  end.
  split; [exact Hno|]. split; [exact Ht|]. split; [exact Hin|exact Hmin].
Defined.

(** X8, at a concrete input: the notification of the lookup of "sw1" at
    110 carries the entry that the job of "sw1" resolved. *)
Lemma caller_notifies_resolved_witness :
  reachable range_fwd (World ex_backlogged [])
  ∧ EvNotify Caller "sw1" (Some ex_entry) ∈ trace ex_backlogged
  ∧ EvUpdate "sw1" (Some ex_entry) ∈ trace ex_backlogged.
Proof.
  assert (Hin : EvNotify Caller "sw1" (Some ex_entry) ∈ trace ex_backlogged).
  { simpl. do 6 right. left. }
  split; [apply ex_backlogged_reachable|]. split; [exact Hin|].
  apply (caller_notifies_resolved range_fwd "sw1" (Some ex_entry) (World ex_backlogged [])
           ex_backlogged_reachable Hin).
Defined.

(** X9, at a concrete input: the cached entry of "sw1". *)
Lemma cache_holds_resolved_witness :
  reachable range_fwd (ex_cached 30)
  ∧ Get "sw1" (sto (ex_cached 30)) = Some (Some ex_entry)
  ∧ EvUpdate "sw1" (Some ex_entry) ∈ trace (sto (ex_cached 30)).
Proof.
  assert (Hget : Get "sw1" (sto (ex_cached 30)) = Some (Some ex_entry))
    by (vm_compute; reflexivity).
  split; [apply ex_cached_reachable|]. split; [exact Hget|].
  apply (cache_holds_resolved range_fwd "sw1" (Some ex_entry) (ex_cached 30)
           (ex_cached_reachable 30) Hget).
Defined.

(** X10, at a concrete input: [update] returned nil for "sw2", the cache
    holds it, and the next lookup of "sw2" fails. *)
Lemma lookup_fails_after_nil_update_witness :
  reachable range_fwd ex_nil_cached
  ∧ lookup range_fwd 200 "sw2" "eth0" (sto ex_nil_cached) = None
  ∧ EvUpdate "sw2" None ∈ trace (sto ex_nil_cached).
Proof.
  assert (Hl : lookup range_fwd 200 "sw2" "eth0" (sto ex_nil_cached) = None)
    by (vm_compute; reflexivity).
  split; [apply ex_nil_cached_reachable|]. split; [exact Hl|].
  apply (lookup_fails_after_nil_update range_fwd 200 "sw2" "eth0" ex_nil_cached
           ex_nil_cached_reachable (or_introl Hl)).
Defined.

(** X11, at a concrete input: the deadline 130 of "sw1" is the creation
    time 100 of its entry plus the interval 30. *)
Lemma deadlines_from_creation_witness :
  reachable range_fwd (World ex_backlogged [])
  ∧ deferredUpdates ex_backlogged !! "sw1" = Some 130
  ∧ 0 < minUpdateInterval ex_backlogged
  ∧ ∃ entry, 130 = created entry + minUpdateInterval ex_backlogged
             ∧ EvUpdate "sw1" (Some entry) ∈ trace ex_backlogged.
Proof.
  assert (Hd : deferredUpdates ex_backlogged !! "sw1" = Some 130)
    by (vm_compute; reflexivity).
  split; [apply ex_backlogged_reachable|]. split; [exact Hd|].
  destruct (deadlines_from_creation range_fwd "sw1" 130 (World ex_backlogged [])
              ex_backlogged_reachable Hd) as (Hpos & _ & Hex).
  split; [exact Hpos|exact Hex].
Defined.

(** X12, at a concrete input: the resolver has panicked in the job of
    "sw2"; one job was submitted for "sw2", none has released the mark, one
    has ended in a panic and none is in the pool. *)
Lemma no_job_lost_witness :
  ∃ w, xrun range_fwd ex_panic (ex_boot 30) = Some w
       ∧ count (is_submit "sw2") (trace (sto w)) = 1%nat
       ∧ count (is_release "sw2") (trace (sto w)) = 0%nat
       ∧ count (is_panic "sw2") (trace (sto w)) = 1%nat
       ∧ jobs_of "sw2" (tasks (pool (sto w))) = 0%nat.
Proof.
  eexists. split; [vm_compute; reflexivity|].
  match goal with |- count _ (trace (sto ?w)) = _ ∧ _ =>
    assert (Hr : xreachable range_fwd w)
      by (exists 16, 3600, 4, 30, ex_panic; vm_compute; reflexivity);
    pose proof (no_job_lost range_fwd "sw2" w Hr) as Hbal
  end.
  assert (H0 : ∀ a b c : nat, (a + b + c = 1 → a = 0 → c = 0 → b = 1)%nat) by lia.
  split; [reflexivity|]. split; [reflexivity|]. split; [|reflexivity].
  apply (H0 _ _ _ (eq_sym Hbal)); reflexivity.
Defined.

(** X13, at a concrete input: [destroy] waits for the job of "sw3". *)
Lemma stopped_store_quiet_witness :
  reachable range_fwd ex_stopping
  ∧ stopped (sto ex_stopping) = true
  ∧ tasks (pool (sto ex_stopping)) ≠ []
  ∧ step range_fwd LFire ex_stopping = None
  ∧ addBacklog range_fwd "sw3" 130 (sto ex_stopping) = sto ex_stopping.
Proof.
  split; [apply ex_stopping_reachable|]. split; [reflexivity|].
  split; [discriminate|].
  destruct (stopped_store_quiet range_fwd ex_stopping ex_stopping_reachable eq_refl)
    as (_ & _ & Hfire & Hadd & _).
  split; [exact Hfire|apply Hadd].
Defined.

(** X15, at a concrete input: the lookup of "sw1" at 110 adds a deadline
    and a notification. *)
Lemma lookup_only_adds_witness :
  lookup range_fwd 110 "sw1" "eth1" (sto (ex_cached 30)) = Some ex_backlogged
  ∧ cache ex_backlogged = cache (sto (ex_cached 30))
  ∧ inflight (sto (ex_cached 30)) ⊆ inflight ex_backlogged.
Proof.
  assert (Hl : lookup range_fwd 110 "sw1" "eth1" (sto (ex_cached 30)) = Some ex_backlogged)
    by (vm_compute; reflexivity).
  split; [exact Hl|].
  destruct (lookup_only_adds range_fwd 110 "sw1" "eth1" (sto (ex_cached 30)) ex_backlogged Hl)
    as (Hc & _ & _ & _ & Hi & _).
  split; [exact Hc|exact Hi].
Defined.

(** X19, at a concrete input: with an interval of 30 and an entry created
    at 100, the lookup at 200 goes to [enqueue]. *)
Lemma lookup_elapsed_iff_witness :
  Get "sw1" (sto (ex_cached 30)) = Some (Some ex_entry)
  ∧ rows ex_entry !! "eth1" = None
  ∧ 0 < minUpdateInterval (sto (ex_cached 30))
  ∧ lookup range_fwd 200 "sw1" "eth1" (sto (ex_cached 30))
    = Some (enqueue "sw1" (sto (ex_cached 30))).
Proof.
  assert (Hget : Get "sw1" (sto (ex_cached 30)) = Some (Some ex_entry))
    by (vm_compute; reflexivity).
  assert (Hrow : rows ex_entry !! "eth1" = None) by (vm_compute; reflexivity).
  assert (Hpos : 0 < minUpdateInterval (sto (ex_cached 30))) by (simpl; lia).
  split; [exact Hget|]. split; [exact Hrow|]. split; [exact Hpos|].
  apply (lookup_elapsed_iff range_fwd 200 "sw1" "eth1" (sto (ex_cached 30)) ex_entry
           Hget Hrow Hpos).
  unfold maxDuration. simpl. lia.
Defined.

(** X1, at a concrete input: while the job of "sw1" runs the cache is
    purged; a lookup of "sw1" then misses and, the key being in flight,
    changes nothing. *)
Lemma purge_isolated_witness :
  "sw1" ∈ inflight (sto ex_midjob)
  ∧ Get "sw1" (purge (sto ex_midjob)) = None
  ∧ lookup range_fwd 110 "sw1" "eth0" (purge (sto ex_midjob)) = Some (purge (sto ex_midjob)).
Proof.
  assert (Hin : "sw1" ∈ inflight (sto ex_midjob)).
  { simpl. by apply elem_of_singleton. }
  destruct (purge_isolated range_fwd 110 "sw1" "eth0" (sto ex_midjob))
    as (_ & _ & _ & _ & _ & _ & Hget & _ & Hl).
  split; [exact Hin|]. split; [exact Hget|exact (Hl Hin)].
Defined.

(** X4, at a concrete input: "sw2" has no deadline in [ex_backlogged];
    adding one and removing it leaves the backlog as it was. *)
Lemma backlog_round_trip_witness :
  deferredUpdates ex_backlogged !! "sw2" = None
  ∧ deferredUpdates (removeBacklog range_fwd "sw2" (addBacklog range_fwd "sw2" 150 ex_backlogged))
    = deferredUpdates ex_backlogged.
Proof.
  assert (Hnone : deferredUpdates ex_backlogged !! "sw2" = None)
    by (vm_compute; reflexivity).
  split; [exact Hnone|].
  destruct (backlog_round_trip range_fwd "sw2" 150 ex_backlogged) as (_ & Hrt & _).
  destruct (Hrt Hnone) as [H _]. exact H.
Defined.

(** X17, at a concrete input: after [destroy] the lookup of "sw1" at 110,
    which would add a deadline, only notifies. *)
Lemma destroyed_store_inert_witness :
  ∃ s', lookup range_fwd 110 "sw1" "eth1" (destroy (sto (ex_cached 30))) = Some s'
        ∧ tasks (pool s') = tasks (pool (sto (ex_cached 30)))
        ∧ deferredUpdates s' = ∅
        ∧ deferredUpdatesTimer s' = None.
Proof.
  eexists. split; [vm_compute; reflexivity|].
  match goal with |- tasks (pool ?s') = _ ∧ _ =>
    destruct (destroyed_store_inert range_fwd 110 "sw1" "eth1" (sto (ex_cached 30)))
      as [_ Hall];
    destruct (Hall s') as (Ht & Hd & HT & _); [vm_compute; reflexivity|]
  end.
  split; [exact Ht|]. split; [exact Hd|exact HT].
Defined.

(** X18, at a concrete input: the backlog of [ex_tie] has the keys "a" and
    "b" with the same deadline. With an order that changes from loop to
    loop, the first [refreshTimer] arms the timer for "a" and a second one
    right after it for "b". Once the backlog is emptied, [refreshTimer]
    leaves the timer it finds, stopped, as often as it is called. *)
Lemma refreshTimer_arms_iff_witness :
  (∀ n m, range_alt n m ≡ₚ map_to_list m)
  ∧ deferredUpdates ex_tie ≠ ∅
  ∧ stopped ex_tie = false
  ∧ deferredUpdatesTimer (refreshTimer range_alt ex_tie) = Some (Timer "a" 10 true)
  ∧ deferredUpdatesTimer (refreshTimer range_alt (refreshTimer range_alt ex_tie))
    = Some (Timer "b" 10 true)
  ∧ refreshTimer range_alt (with_deferredUpdates ∅ ex_backlogged)
    = with_timer (Some (Timer "sw1" 130 false)) (with_deferredUpdates ∅ ex_backlogged).
Proof.
  assert (Hperm : ∀ n m, range_alt n m ≡ₚ map_to_list m).
  { intros n m. unfold range_alt. destruct (Nat.even n); [done|].
    apply reverse_Permutation. }
  assert (Hne : deferredUpdates ex_tie ≠ ∅).
  { simpl. apply insert_non_empty. }
  split; [exact Hperm|]. split; [exact Hne|]. split; [reflexivity|].
  destruct (refreshTimer_arms_iff range_alt ex_tie) as (_ & _ & _ & Hbusy).
  destruct (Hbusy Hne eq_refl) as [H1 H2].
  split; [exact H1|]. split; [exact H2|].
  destruct (refreshTimer_arms_iff range_alt (with_deferredUpdates ∅ ex_backlogged))
    as (_ & _ & Hidle & _).
  destruct (Hidle (or_introl eq_refl)) as [H3 _]. exact H3.
Defined.
